(** * llvm/Support/AlignOf.h: alignment deduction and aligned storage

    The header computes everything at compile time, from what the
    compiler reports for [sizeof] of a few helper types.  The development
    therefore has two layers:

    - the object layout of the host toolchain (sizes and alignments of the
      C++ types the header is instantiated with), and
    - the templates of the header, written as functions from types to
      types and constants.

    Target: x86-64, LP64, Itanium C++ ABI, as implemented by GCC. *)

From Stdlib Require Import ZArith List Bool String Lia Permutation.
Import ListNotations.
Local Open Scope Z_scope.

#[local] Set Warnings "-register-all".

(** ** Compile-time results

    A template instantiation that the compiler rejects has no value:
    [None].  The header's own computations are chained with [bind]. *)

Definition bind {A B : Type} (m : option A) (k : A -> option B) : option B :=
  match m with
  | Some a => k a
  | None => None
  end.

Notation "x <- m ;; k" := (bind m (fun x => k))
  (at level 61, m at next level, right associativity).

Definition mapM {A B : Type} (f : A -> option B) : list A -> option (list B) :=
  fix go (l : list A) : option (list B) :=
    match l with
    | [] => Some []
    | a :: r => b <- f a ;; bs <- go r ;; Some (b :: bs)
    end.

(** ** Target constants *)

Definition size_t_bits : Z := 64.
Definition unsigned_bits : Z := 32.
Definition pointer_size : Z := 8.

(** GCC rejects a type larger than [PTRDIFF_MAX] bytes and an alignment
    request above 2^28. *)
Definition max_object_size : Z := 2 ^ 63 - 1.
Definition max_alignment : Z := 2 ^ 28.

(** ** C++ types *)

Inductive builtin : Type :=
| Bool | Char | Short | Int | Long | LongLong
| Float | Double | LongDouble | Pointer.

(** What a class declares besides its bases and data members. *)
Record class_head : Type := {
  (* declares a virtual member function *)
  c_virtual : bool;
  (* declares a pure virtual member function *)
  c_pure : bool;
  (* gives a final overrider to every pure virtual function it inherits *)
  c_overrides : bool;
  (* no user-declared constructor, destructor or copy assignment and no
     private or protected data member *)
  c_trivial : bool
}.

(** A data member: an optional alignment specifier ([alignas(a)],
    [__attribute__((aligned(a)))], [__declspec(align(a))]) and its type.
    A base specifier: [true] for [virtual], and the base class. *)
Inductive ty : Type :=
| Builtin (b : builtin)
| Array (elem : ty) (n : Z)
| Union (members : list (option Z * ty))
| Class (name : string) (h : class_head)
        (bases : list (bool * ty)) (fields : list (option Z * ty)).

(** ** Object layout *)

(** A virtual base as the most derived class sees it. *)
Record vbase : Type := {
  vb_name : string;
  vb_size : Z;
  vb_nvsize : Z;
  vb_nvalign : Z;
  vb_empty : bool
}.

(** What the compiler knows of a complete type. [t_nvsize] and [t_nvalign]
    are the size and alignment of the part that is laid out when the type
    is a base class; [t_vbases] are its virtual bases in inheritance graph
    order. *)
Record tinfo : Type := {
  t_name : string;
  t_size : Z;
  t_align : Z;
  t_nvsize : Z;
  t_nvalign : Z;
  t_class : bool;
  t_dynamic : bool;
  t_abstract : bool;
  t_empty : bool;
  t_pod : bool;
  t_vbases : list vbase
}.

Definition builtin_size (b : builtin) : Z :=
  match b with
  | Bool | Char => 1
  | Short => 2
  | Int | Float => 4
  | Long | LongLong | Double | Pointer => 8
  | LongDouble => 16
  end.

Definition scalar_info (sz al : Z) (pod : bool) : tinfo :=
  {| t_name := EmptyString; t_size := sz; t_align := al;
     t_nvsize := sz; t_nvalign := al;
     t_class := false; t_dynamic := false; t_abstract := false;
     t_empty := false; t_pod := pod; t_vbases := [] |}.

(** On x86-64 every scalar is aligned on its size. *)
Definition builtin_info (b : builtin) : tinfo :=
  scalar_info (builtin_size b) (builtin_size b) true.

(** The next multiple of [a] at or after [x]. *)
Definition align_to (x a : Z) : Z := (x + a - 1) / a * a.

Definition is_pow2 (a : Z) : bool := (0 <? a) && (a =? 2 ^ Z.log2 a).

(** The alignment of a data member of natural alignment [natural] under an
    alignment specifier.  [alignas(0)] is ignored; a request that is not a
    power of two, or above the maximum, is rejected; a weaker request does
    not lower the alignment. *)
Definition field_align (spec : option Z) (natural : Z) : option Z :=
  match spec with
  | None => Some natural
  | Some a =>
      if a =? 0 then Some natural
      else if is_pow2 a && (a <=? max_alignment)
           then Some (Z.max a natural) else None
  end.

(** A data member as the enclosing class sees it: size, alignment, and
    whether its type is a POD.  A member of abstract class type is
    rejected. *)
Definition field_info (spec : option Z) (i : tinfo) : option (Z * Z * bool) :=
  if t_abstract i then None
  else a <- field_align spec (t_align i) ;; Some (t_size i, a, t_pod i).

(** An array of [n] elements.  ISO C++ wants [n >= 1]; the arrays of no
    element that g++ accepts as an extension get no layout here. *)
Definition array_info (i : tinfo) (n : Z) : option tinfo :=
  if t_abstract i || (n <? 1) || (max_object_size <? n * t_size i) then None
  else Some (scalar_info (n * t_size i) (t_align i) (t_pod i)).

(** *** Classes, after the Itanium C++ ABI, section 2.4 *)

(** The running state of the allocation of a class: [dsize] is the data
    size so far, [csize] the size, [calign] the alignment. *)
Record cursor : Type := { dsize : Z; csize : Z; calign : Z }.

Definition place_member (c : cursor) (sz al : Z) : cursor :=
  let off := align_to (dsize c) al in
  {| dsize := off + sz;
     csize := Z.max (csize c) (off + sz);
     calign := Z.max (calign c) al |}.

(** An empty base goes at offset zero and takes no data size.  The ABI
    moves an empty base away from an offset at which a subobject of its
    type already lies; classes that need that, such as
    [struct E {}; struct A : E {}; struct B : E {}; struct C : A, B {};],
    are not covered: their bases are all put at offset zero here. *)
Definition place_empty (c : cursor) (sz al : Z) : cursor :=
  {| dsize := dsize c;
     csize := Z.max (csize c) sz;
     calign := Z.max (calign c) al |}.

Definition place_base (c : cursor) (b : tinfo) : cursor :=
  if t_empty b then place_empty c (t_size b) (t_nvalign b)
  else place_member c (t_nvsize b) (t_nvalign b).

Definition place_field (c : cursor) (f : Z * Z * bool) : cursor :=
  place_member c (fst (fst f)) (snd (fst f)).

Definition place_vbase (c : cursor) (v : vbase) : cursor :=
  if vb_empty v then place_empty c (vb_size v) (vb_nvalign v)
  else place_member c (vb_nvsize v) (vb_nvalign v).

(** The sizes so far, rounded to a non-zero multiple of the alignment. *)
Definition final_size (c : cursor) : Z :=
  align_to (Z.max (csize c) 1) (calign c).

Definition as_vbase (b : tinfo) : vbase :=
  {| vb_name := t_name b; vb_size := t_size b; vb_nvsize := t_nvsize b;
     vb_nvalign := t_nvalign b; vb_empty := t_empty b |}.

(** Each virtual base once, at its first place in the graph order. *)
Fixpoint dedupe (seen : list string) (l : list vbase) : list vbase :=
  match l with
  | [] => []
  | v :: r =>
      if existsb (String.eqb (vb_name v)) seen then dedupe seen r
      else v :: dedupe (vb_name v :: seen) r
  end.

Definition graph_vbases (bs : list (bool * tinfo)) : list vbase :=
  dedupe []
    (flat_map (fun b : bool * tinfo => if fst b then [as_vbase (snd b)]
                        else t_vbases (snd b)) bs).

(** The list without its first dynamic class. *)
Fixpoint drop_primary (l : list tinfo) : list tinfo :=
  match l with
  | [] => []
  | b :: r => if t_dynamic b then r else b :: drop_primary r
  end.

(** The non-virtual direct bases in allocation order: the primary base,
    which is the first dynamic one, then the others as declared. *)
Definition base_order (nv : list tinfo) : list tinfo :=
  match find t_dynamic nv with
  | Some p => p :: drop_primary nv
  | None => nv
  end.

(** A class with no primary base that needs a virtual table pointer gets
    one at offset zero. *)
Definition start_cursor (dynamic : bool) (nv : list tinfo) : cursor :=
  if dynamic && negb (existsb t_dynamic nv)
  then {| dsize := pointer_size; csize := pointer_size;
          calign := pointer_size |}
  else {| dsize := 0; csize := 0; calign := 1 |}.

(** A base must be a class; this development covers virtual bases that
    have no virtual table pointer of their own.  A class over another
    virtual base gets no layout here, although the compiler accepts
    it. *)
Definition base_ok (b : bool * tinfo) : bool :=
  t_class (snd b) && negb (fst b && t_dynamic (snd b)).

Definition class_info (name : string) (h : class_head)
    (bs : list (bool * tinfo)) (fs : list (Z * Z * bool)) : option tinfo :=
  if negb (forallb base_ok bs) then None else
  let nv := map snd (filter (fun b => negb (fst b)) bs) in
  let dynamic :=
    c_virtual h || c_pure h
    || existsb (fun b => fst b || t_dynamic (snd b)) bs in
  let abstract :=
    c_pure h
    || (existsb (fun b => t_abstract (snd b)) bs && negb (c_overrides h)) in
  let c1 := fold_left place_base (base_order nv) (start_cursor dynamic nv) in
  let c2 := fold_left place_field fs c1 in
  let vbs := graph_vbases bs in
  let c3 := fold_left place_vbase vbs c2 in
  let size := final_size c3 in
  let pod :=
    c_trivial h && negb dynamic
    && match bs with [] => true | _ => false end
    && forallb snd fs in
  let empty :=
    negb dynamic
    && match fs with [] => true | _ => false end
    && forallb (fun b => t_empty (snd b)) bs in
  if max_object_size <? size then None else
  Some {| t_name := name; t_size := size; t_align := calign c3;
          t_nvsize := if pod then size else dsize c2;
          t_nvalign := calign c2;
          t_class := true; t_dynamic := dynamic; t_abstract := abstract;
          t_empty := empty; t_pod := pod; t_vbases := vbs |}.

(** A union overlays its members. *)
Definition union_info (fs : list (Z * Z * bool)) : option tinfo :=
  let al := fold_right Z.max 1 (map (fun f => snd (fst f)) fs) in
  let sz := align_to (fold_right Z.max 1 (map (fun f => fst (fst f)) fs)) al in
  if max_object_size <? sz then None
  else Some (scalar_info sz al (forallb snd fs)).

(** *** Type identity

    Two types are the same when they are declared alike, names
    included. *)

Definition builtin_eqb (x y : builtin) : bool :=
  match x, y with
  | Bool, Bool | Char, Char | Short, Short | Int, Int | Long, Long
  | LongLong, LongLong | Float, Float | Double, Double
  | LongDouble, LongDouble | Pointer, Pointer => true
  | _, _ => false
  end.

Definition head_eqb (h h' : class_head) : bool :=
  Bool.eqb (c_virtual h) (c_virtual h') && Bool.eqb (c_pure h) (c_pure h')
  && Bool.eqb (c_overrides h) (c_overrides h')
  && Bool.eqb (c_trivial h) (c_trivial h').

Definition spec_eqb (a b : option Z) : bool :=
  match a, b with
  | Some x, Some y => x =? y
  | None, None => true
  | _, _ => false
  end.

Definition list_eqb {A : Type} (eqb : A -> A -> bool)
  : list A -> list A -> bool :=
  fix go (l l' : list A) : bool :=
    match l, l' with
    | [], [] => true
    | a :: r, a' :: r' => eqb a a' && go r r'
    | _, _ => false
    end.

Fixpoint ty_eqb (a b : ty) : bool :=
  match a, b with
  | Builtin x, Builtin y => builtin_eqb x y
  | Array e n, Array e' n' => ty_eqb e e' && (n =? n')
  | Union ms, Union ms' =>
      list_eqb (fun m m' => spec_eqb (fst m) (fst m')
                            && ty_eqb (snd m) (snd m')) ms ms'
  | Class name h bs fs, Class name' h' bs' fs' =>
      String.eqb name name' && head_eqb h h'
      && list_eqb (fun b b' => Bool.eqb (fst b) (fst b')
                               && ty_eqb (snd b) (snd b')) bs bs'
      && list_eqb (fun m m' => spec_eqb (fst m) (fst m')
                               && ty_eqb (snd m) (snd m')) fs fs'
  | _, _ => false
  end.

(** No type occurs twice in the list.  A class may name a class as a
    direct base only once: [layout] asks this of the direct bases. *)
Fixpoint distinct (l : list ty) : bool :=
  match l with
  | [] => true
  | t :: r => negb (existsb (ty_eqb t) r) && distinct r
  end.

Fixpoint layout (t : ty) : option tinfo :=
  match t with
  | Builtin b => Some (builtin_info b)
  | Array e n => i <- layout e ;; array_info i n
  | Union ms =>
      fs <- mapM (fun m => i <- layout (snd m) ;; field_info (fst m) i) ms ;;
      union_info fs
  | Class name h bs fs =>
      if negb (distinct (map snd bs)) then None else
      bi <- mapM (fun b => i <- layout (snd b) ;; Some (fst b, i)) bs ;;
      fi <- mapM (fun m => i <- layout (snd m) ;; field_info (fst m) i) fs ;;
      class_info name h bi fi
  end.

Definition sizeof (t : ty) : option Z := i <- layout t ;; Some (t_size i).
Definition alignof (t : ty) : option Z := i <- layout t ;; Some (t_align i).
Definition is_abstract (t : ty) : option bool :=
  i <- layout t ;; Some (t_abstract i).

(** ** The header *)

(** No virtual functions; [trivial] tells whether the class declares
    constructors or non-public members. *)
Definition plain_class (trivial : bool) : class_head :=
  {| c_virtual := false; c_pure := false; c_overrides := false;
     c_trivial := trivial |}.

(** A class that declares a pure virtual destructor. *)
Definition pure_dtor_class : class_head :=
  {| c_virtual := true; c_pure := true; c_overrides := false;
     c_trivial := false |}.

Definition member (T : ty) : option Z * ty := (None, T).

(** [struct AlignmentCalcImplBase { virtual ~AlignmentCalcImplBase() = 0; };] *)
Definition AlignmentCalcImplBase : ty :=
  Class "AlignmentCalcImplBase"%string pure_dtor_class [] [].

(** [template <typename T, bool = std::is_abstract<T>::value>
     struct AlignmentCalcImpl]: one [char x] followed by one [T t] and a
    private constructor, or, for an abstract [T], the class deriving from
    [AlignmentCalcImplBase] and [T] with a pure virtual destructor. *)
Definition AlignmentCalcImpl (T : ty) : option ty :=
  abstract <- is_abstract T ;;
  Some (if abstract : bool
        then Class "AlignmentCalcImpl"%string pure_dtor_class
               [(false, AlignmentCalcImplBase); (false, T)] []
        else Class "AlignmentCalcImpl"%string (plain_class false) []
               [member (Builtin Char); member T]).

(** [sizeof(a) - sizeof(b)] in [size_t], and [static_cast<unsigned int>]. *)
Definition size_t_sub (a b : Z) : Z := (a - b) mod 2 ^ size_t_bits.
Definition static_cast_unsigned (x : Z) : Z := x mod 2 ^ unsigned_bits.

(** The members of [template <typename T> struct AlignOf]. *)
Record AlignOf_members : Type := {
  Alignment : Z;
  Alignment_GreaterEqual_2Bytes : Z;
  Alignment_GreaterEqual_4Bytes : Z;
  Alignment_GreaterEqual_8Bytes : Z;
  Alignment_GreaterEqual_16Bytes : Z;
  Alignment_LessEqual_2Bytes : Z;
  Alignment_LessEqual_4Bytes : Z;
  Alignment_LessEqual_8Bytes : Z;
  Alignment_LessEqual_16Bytes : Z
}.

Definition AlignOf (T : ty) : option AlignOf_members :=
  impl <- AlignmentCalcImpl T ;;
  size_impl <- sizeof impl ;;
  size_T <- sizeof T ;;
  let a := static_cast_unsigned (size_t_sub size_impl size_T) in
  Some {| Alignment := a;
          Alignment_GreaterEqual_2Bytes := if 2 <=? a then 1 else 0;
          Alignment_GreaterEqual_4Bytes := if 4 <=? a then 1 else 0;
          Alignment_GreaterEqual_8Bytes := if 8 <=? a then 1 else 0;
          Alignment_GreaterEqual_16Bytes := if 16 <=? a then 1 else 0;
          Alignment_LessEqual_2Bytes := if a <=? 2 then 1 else 0;
          Alignment_LessEqual_4Bytes := if a <=? 4 then 1 else 0;
          Alignment_LessEqual_8Bytes := if a <=? 8 then 1 else 0;
          Alignment_LessEqual_16Bytes := if a <=? 16 then 1 else 0 |}.

(** [template <typename T> inline unsigned alignOf()] *)
Definition alignOf (T : ty) : option Z := r <- AlignOf T ;; Some (Alignment r).

(** The three preprocessor branches that declare [AlignedCharArray]:
    [__has_feature(cxx_alignas)], then [__GNUC__] or [__IBM_ATTRIBUTES],
    and [_MSC_VER]. *)
Inductive directive : Type := CxxAlignas | GnuAttribute | MsvcDeclspec.

(** [struct { <aligned by a> char buffer[Size]; }] *)
Definition aligned_buffer (a Size : Z) : ty :=
  Class "AlignedCharArray"%string (plain_class true) []
    [(Some a, Array (Builtin Char) Size)].

(** [struct { union { <T> aligned; char buffer[Size]; }; }] *)
Definition union_buffer (T : ty) (Size : Z) : ty :=
  Class "AlignedCharArray"%string (plain_class true) []
    [member (Union [member T; member (Array (Builtin Char) Size)])].

Definition macro_alignments : list Z := [1; 2; 4; 8; 16; 32; 64; 128].
Definition declspec_alignments : list Z := [16; 32; 64; 128].

Definition mem (a : Z) (l : list Z) : bool := existsb (Z.eqb a) l.

(** [template <std::size_t Alignment, std::size_t Size>
     struct AlignedCharArray].  With [alignas] the primary template is
    defined; in the other two branches it is only declared and the
    specializations define it. *)
Definition AlignedCharArray (d : directive) (Align Size : Z) : option ty :=
  match d with
  | CxxAlignas => Some (aligned_buffer Align Size)
  | GnuAttribute =>
      if mem Align macro_alignments then Some (aligned_buffer Align Size)
      else None
  | MsvcDeclspec =>
      if Align =? 1 then Some (union_buffer (Builtin Char) Size)
      else if Align =? 2 then Some (union_buffer (Builtin Short) Size)
      else if Align =? 4 then Some (union_buffer (Builtin Int) Size)
      else if Align =? 8 then Some (union_buffer (Builtin Double) Size)
      else if mem Align declspec_alignments
           then Some (aligned_buffer Align Size)
           else None
  end.

(** The template argument list of [AlignerImpl], [SizerImpl] and
    [AlignedCharArrayUnion]: [T1] is required, [T2] to [T10] default to
    [char], an eleventh argument is rejected. *)
Definition default_args (explicit : list ty) : option (list ty) :=
  match explicit with
  | [] => None
  | _ =>
      if (List.length explicit <=? 10)%nat
      then Some (explicit ++ repeat (Builtin Char) (10 - List.length explicit))
      else None
  end.

(** [class AlignerImpl { T1 t1; ... T10 t10; AlignerImpl(); };] *)
Definition AlignerImpl (Ts : list ty) : ty :=
  Class "AlignerImpl"%string (plain_class false) [] (map member Ts).

(** [union SizerImpl { char arr1[sizeof(T1)], ..., arr10[sizeof(T10)]; };] *)
Definition SizerImpl (Ts : list ty) : option ty :=
  arrs <- mapM (fun T => s <- sizeof T ;;
                         Some (member (Array (Builtin Char) s))) Ts ;;
  Some (Union arrs).

(** [struct AlignedCharArrayUnion : <storage> {};] *)
Definition derived (storage : ty) : ty :=
  Class "AlignedCharArrayUnion"%string (plain_class true)
    [(false, storage)] [].

(** [struct AlignedCharArrayUnion : llvm::AlignedCharArray<
       AlignOf<detail::AlignerImpl<T1, ..., T10>>::Alignment,
       sizeof(detail::SizerImpl<T1, ..., T10>)> {};] *)
Definition AlignedCharArrayUnion (d : directive) (explicit : list ty)
  : option ty :=
  Ts <- default_args explicit ;;
  a <- AlignOf (AlignerImpl Ts) ;;
  sizer <- SizerImpl Ts ;;
  s <- sizeof sizer ;;
  storage <- AlignedCharArray d (Alignment a) s ;;
  Some (derived storage).

(** ** Notions the statements use *)

(** An alignment the compiler can give: a power of two up to
    [max_alignment]. *)
Definition pow2 (a : Z) : Prop := exists k, 0 <= k <= 28 /\ a = 2 ^ k.

(** What holds of every layout the compiler computes. *)
Record wf (i : tinfo) : Prop := {
  wf_align : pow2 (t_align i);
  wf_nvalign : pow2 (t_nvalign i);
  wf_size : 1 <= t_size i <= max_object_size;
  wf_mod : t_size i mod t_align i = 0;
  wf_nvsize : 0 <= t_nvsize i;
  wf_abstract : t_abstract i = true -> t_dynamic i = true;
  wf_class : t_dynamic i = true -> t_class i = true;
  wf_dynamic :
    t_dynamic i = true ->
    t_empty i = false /\ pointer_size <= t_nvalign i
    /\ pointer_size <= t_nvsize i;
  wf_empty : t_empty i = true -> t_size i = 1 /\ t_nvalign i = 1;
  wf_static : t_dynamic i = false -> t_vbases i = [];
  wf_novb :
    t_dynamic i = true -> t_vbases i = [] ->
    t_align i = t_nvalign i /\ t_size i = align_to (t_nvsize i) (t_align i);
  wf_vbases : Forall (fun v => pow2 (vb_nvalign v)) (t_vbases i)
}.

(** A data member as [field_info] returns it. *)
Definition wf_field (f : Z * Z * bool) : Prop :=
  1 <= fst (fst f) <= max_object_size /\ pow2 (snd (fst f)).

(** The allocation cursor between two steps. [lo] bounds the data size
    and the alignment from below: 0 at the start, the pointer size once a
    virtual table pointer is in. *)
Definition cinv (lo : Z) (c : cursor) : Prop :=
  lo <= dsize c /\ dsize c <= csize c /\ csize c <= Z.max (dsize c) 1
  /\ pow2 (calign c) /\ lo <= calign c.

(** Whether a class needs a virtual table pointer, as [class_info] has it. *)
Definition dynamic_of (h : class_head) (bs : list (bool * tinfo)) : bool :=
  c_virtual h || c_pure h || existsb (fun b => fst b || t_dynamic (snd b)) bs.

Definition as_field (i : tinfo) : Z * Z * bool := (t_size i, t_align i, t_pod i).

Definition is_max (m : Z) (l : list Z) : Prop :=
  In m l /\ Forall (fun x => x <= m) l.

(** What every branch lays out for [AlignedCharArray<a, Size>]. *)
Definition storage_info (a Size : Z) : tinfo :=
  {| t_name := "AlignedCharArray"%string; t_size := align_to Size a; t_align := a;
     t_nvsize := align_to Size a; t_nvalign := a; t_class := true;
     t_dynamic := false; t_abstract := false; t_empty := false;
     t_pod := true; t_vbases := [] |}.

(** The address of element [k] of an array that starts at [base] and has
    elements of [size] bytes. *)
Definition element_address (base k size : Z) : Z := base + k * size.

(** A concrete class that derives from [T], overrides what [T] leaves
    pure and adds no data member. *)
Definition ConcreteSubtype (T : ty) : ty :=
  Class "ConcreteSubtype"%string
    {| c_virtual := true; c_pure := false; c_overrides := true;
       c_trivial := false |}
    [(false, T)] [].

(** An abstract class with a virtual base that is aligned more strictly
    than a pointer:
    [struct V { long double ld; };
     struct T : virtual V { virtual void f() = 0; };] *)
Definition VBase : ty :=
  Class "V"%string (plain_class true) [] [member (Builtin LongDouble)].
Definition AbstractOverVBase : ty :=
  Class "T"%string {| c_virtual := true; c_pure := true; c_overrides := false;
               c_trivial := true |} [(true, VBase)] [].

(** The storage for the maxima over two types, computed from the two
    types alone. *)
Definition direct_two_type (d : directive) (T1 T2 : ty) : option ty :=
  a1 <- alignof T1 ;; a2 <- alignof T2 ;;
  s1 <- sizeof T1 ;; s2 <- sizeof T2 ;;
  storage <- AlignedCharArray d (Z.max a1 a2) (Z.max s1 s2) ;;
  Some (derived storage).

(** ** Where objects start *)

(** The non-virtual direct bases with their types, ordered like
    [base_order]. *)
Fixpoint drop_primary_typed (l : list (ty * tinfo)) : list (ty * tinfo) :=
  match l with
  | [] => []
  | b :: r => if t_dynamic (snd b) then r else b :: drop_primary_typed r
  end.

Definition typed_base_order (nv : list (ty * tinfo)) : list (ty * tinfo) :=
  match find (fun b => t_dynamic (snd b)) nv with
  | Some p => p :: drop_primary_typed nv
  | None => nv
  end.

(** Where [place_base] puts a base, and [place_field] a data member. *)
Definition base_offset (c : cursor) (b : tinfo) : Z :=
  if t_empty b then 0 else align_to (dsize c) (t_nvalign b).

Definition field_offset (c : cursor) (f : Z * Z * bool) : Z :=
  align_to (dsize c) (snd (fst f)).

Fixpoint base_offsets (c : cursor) (bs : list (ty * tinfo)) : list (ty * Z) :=
  match bs with
  | [] => []
  | b :: r =>
      (fst b, base_offset c (snd b)) :: base_offsets (place_base c (snd b)) r
  end.

Fixpoint field_offsets (c : cursor) (fs : list (ty * (Z * Z * bool)))
  : list (ty * Z) :=
  match fs with
  | [] => []
  | f :: r =>
      (fst f, field_offset c (snd f))
        :: field_offsets (place_field c (snd f)) r
  end.

(** The subobjects that a class or a union lays out itself, with their
    offsets: the non-virtual direct bases and the data members of a
    class, the members of a union.  Virtual bases, whose place depends
    on the most derived class, are left out. *)
Definition subobjects (C : ty) : option (list (ty * Z)) :=
  match C with
  | Class name h bs fs =>
      _ <- layout C ;;
      bi <- mapM (fun b => i <- layout (snd b) ;; Some (fst b, i)) bs ;;
      nv <- mapM (fun b => i <- layout (snd b) ;; Some (snd b, i))
              (filter (fun b => negb (fst b)) bs) ;;
      fi <- mapM (fun m => i <- layout (snd m) ;;
                           f <- field_info (fst m) i ;; Some (snd m, f)) fs ;;
      let c0 := start_cursor (dynamic_of h bi) (map snd nv) in
      let ordered := typed_base_order nv in
      let c1 := fold_left place_base (map snd ordered) c0 in
      Some (base_offsets c0 ordered ++ field_offsets c1 fi)
  | Union ms =>
      _ <- layout C ;;
      Some (map (fun m => (snd m, 0)) ms)
  | _ => None
  end.

(** [contains C T off]: an object of type [C] has an object of type [T]
    at offset [off]: itself, an element of an array in it, or a subobject
    of a class or union object in it. *)
Inductive contains (C : ty) : ty -> Z -> Prop :=
| contains_self : contains C C 0
| contains_element T n i k off :
    contains C (Array T n) off -> layout T = Some i -> 0 <= k < n ->
    contains C T (element_address off k (t_size i))
| contains_subobject D subs T off off' :
    contains C D off -> subobjects D = Some subs -> In (T, off') subs ->
    contains C T (off + off').

(** An object of type [T] starts at [addr]: it is, or lies in, a complete
    object whose storage meets the alignment requirement of its type. *)
Definition starts_at (T : ty) (addr : Z) : Prop :=
  exists C i base off,
    layout C = Some i /\ base mod t_align i = 0
    /\ contains C T off /\ addr = base + off.

(** The class [t] and the classes of its base-class subobjects, one entry
    for each subobject. *)
Fixpoint base_subobjects (t : ty) : list ty :=
  match t with
  | Class _ _ bs _ => t :: flat_map (fun b => base_subobjects (snd b)) bs
  | _ => []
  end.

(** ** Types the examples use *)

(** [struct Shape { virtual ~Shape() = 0; alignas(32) char c; };] *)
Definition AbstractAligned32 : ty :=
  Class "Shape" pure_dtor_class [] [(Some 32, Builtin Char)].

(** [struct Node { virtual void f(); int i; };] *)
Definition WithVirtualFunction : ty :=
  Class "Node" {| c_virtual := true; c_pure := false; c_overrides := false;
                  c_trivial := false |} [] [member (Builtin Int)].

(** [struct Page { alignas(256) char c; };] *)
Definition Aligned256 : ty :=
  Class "Page" (plain_class true) [] [(Some 256, Builtin Char)].

(** [struct Base {}; struct Tag : Base {};] *)
Definition EmptyDerived : ty :=
  Class "Tag" (plain_class true)
    [(false, Class "Base" (plain_class true) [] [])] [].

(** [struct Slot { char tag; AlignedCharArray<8, 3> store; };] *)
Definition Slot : ty :=
  Class "Slot" (plain_class true) []
    [member (Builtin Char); member (aligned_buffer 8 3)].

(** Induction on types, through the lists of members and bases. *)
Section TyInd.
Variable P : ty -> Prop.
Hypothesis HBuiltin : forall b, P (Builtin b).
Hypothesis HArray : forall e n, P e -> P (Array e n).
Hypothesis HUnion :
  forall ms, Forall (fun m => P (snd m)) ms -> P (Union ms).
Hypothesis HClass :
  forall name h bs fs,
    Forall (fun b => P (snd b)) bs -> Forall (fun m => P (snd m)) fs ->
    P (Class name h bs fs).

Fixpoint ty_nested_ind (t : ty) : P t :=
  match t with
  | Builtin b => HBuiltin b
  | Array e n => HArray e n (ty_nested_ind e)
  | Union ms =>
      HUnion ms
        ((fix go l : Forall (fun m => P (snd m)) l :=
            match l with
            | [] => Forall_nil _
            | m :: r => Forall_cons m (ty_nested_ind (snd m)) (go r)
            end) ms)
  | Class name h bs fs =>
      HClass name h bs fs
        ((fix go l : Forall (fun b => P (snd b)) l :=
            match l with
            | [] => Forall_nil _
            | m :: r => Forall_cons m (ty_nested_ind (snd m)) (go r)
            end) bs)
        ((fix go l : Forall (fun m => P (snd m)) l :=
            match l with
            | [] => Forall_nil _
            | m :: r => Forall_cons m (ty_nested_ind (snd m)) (go r)
            end) fs)
  end.
End TyInd.

(** * Proofs *)

Section Rounding.
Variable a : Z.
Hypothesis Ha : 0 < a.

Lemma align_to_mod x : align_to x a mod a = 0.
Proof. unfold align_to. apply Z.mod_mul. lia. Qed.

Lemma align_to_bounds x : x <= align_to x a < x + a.
Proof.
  unfold align_to.
  pose proof (Z.div_mod (x + a - 1) a ltac:(lia)).
  pose proof (Z.mod_pos_bound (x + a - 1) a Ha). lia.
Qed.

Lemma align_to_multiple x : x mod a = 0 -> align_to x a = x.
Proof.
  intros Hx. apply Z.mod_divide in Hx; [|lia]. destruct Hx as [q ->].
  unfold align_to.
  replace (q * a + a - 1) with ((a - 1) + q * a) by lia.
  rewrite Z.div_add by lia. rewrite Z.div_small by lia. lia.
Qed.

Lemma align_to_shift k x : align_to (k * a + x) a = k * a + align_to x a.
Proof.
  unfold align_to.
  replace (k * a + x + a - 1) with ((x + a - 1) + k * a) by lia.
  rewrite Z.div_add by lia. lia.
Qed.

Lemma align_to_one : align_to 1 a = a.
Proof.
  unfold align_to. replace (1 + a - 1) with (1 * a) by lia.
  rewrite Z.div_mul by lia. lia.
Qed.

Lemma align_to_zero : align_to 0 a = 0.
Proof. apply align_to_multiple. apply Z.mod_0_l. lia. Qed.

Lemma align_to_least x m : x <= m -> m mod a = 0 -> align_to x a <= m.
Proof.
  intros Hx Hm. apply Z.mod_divide in Hm; [|lia]. destruct Hm as [q ->].
  pose proof (align_to_bounds x) as Hb.
  pose proof (align_to_mod x) as Hd.
  apply Z.mod_divide in Hd; [|lia]. destruct Hd as [r Hr].
  rewrite Hr in *.
  destruct (Z.le_gt_cases r q) as [Hrq|Hrq]; [nia|].
  assert (q * a + a <= r * a) by nia. lia.
Qed.

Lemma align_to_mono x y : x <= y -> align_to x a <= align_to y a.
Proof.
  intros Hxy. apply align_to_least.
  - pose proof (align_to_bounds y). lia.
  - apply align_to_mod.
Qed.
End Rounding.

Lemma pow2_range a : pow2 a -> 1 <= a <= max_alignment.
Proof.
  intros (k & Hk & ->). unfold max_alignment. split.
  - pose proof (Z.pow_pos_nonneg 2 k). lia.
  - apply Z.pow_le_mono_r; lia.
Qed.

Lemma pow2_max a b : pow2 a -> pow2 b -> pow2 (Z.max a b).
Proof. intros Ha Hb. destruct (Z.max_spec a b) as [[_ ->]|[_ ->]]; assumption. Qed.

Lemma pow2_one : pow2 1.
Proof. exists 0. split; [lia|reflexivity]. Qed.

Lemma pow2_divide a b : pow2 a -> pow2 b -> a <= b -> b mod a = 0.
Proof.
  intros (k & Hk & ->) (l & Hl & ->) Hle.
  assert (k <= l).
  { destruct (Z.le_gt_cases k l); [assumption|].
    pose proof (Z.pow_lt_mono_r 2 l k). lia. }
  replace l with ((l - k) + k) by lia.
  rewrite Z.pow_add_r by lia. apply Z.mod_mul.
  pose proof (Z.pow_pos_nonneg 2 k). lia.
Qed.

Lemma is_pow2_sound a :
  is_pow2 a = true -> a <= max_alignment -> pow2 a.
Proof.
  unfold is_pow2. intros H Hle. apply andb_true_iff in H. destruct H as [Hp He].
  apply Z.ltb_lt in Hp. apply Z.eqb_eq in He.
  exists (Z.log2 a). split; [|assumption]. split.
  - apply Z.log2_nonneg.
  - change 28 with (Z.log2 (2 ^ 28)). apply Z.log2_le_mono. exact Hle.
Qed.

Lemma bind_Some {A B} (m : option A) (k : A -> option B) b :
  bind m k = Some b -> exists a, m = Some a /\ k a = Some b.
Proof. destruct m as [a|]; simpl; [eauto|discriminate]. Qed.

Lemma mapM_Forall2 {A B} (f : A -> option B) l r :
  mapM f l = Some r -> Forall2 (fun a b => f a = Some b) l r.
Proof.
  revert r. induction l as [|a l IH]; simpl; intros r H.
  - injection H as <-. constructor.
  - apply bind_Some in H. destruct H as (b & Hb & H).
    apply bind_Some in H. destruct H as (bs & Hbs & H).
    injection H as <-. constructor; auto.
Qed.

Lemma wf_scalar sz al pod :
  pow2 al -> 1 <= sz <= max_object_size -> sz mod al = 0 ->
  wf (scalar_info sz al pod).
Proof.
  intros Hal Hsz Hmod.
  constructor; simpl; try assumption; try discriminate; try lia; auto.
Qed.

Lemma wf_builtin b : wf (builtin_info b).
Proof.
  apply wf_scalar.
  - destruct b; simpl;
      [exists 0|exists 0|exists 1|exists 2|exists 3|exists 3
      |exists 2|exists 3|exists 4|exists 3]; (split; [lia|reflexivity]).
  - destruct b; simpl; unfold max_object_size; lia.
  - destruct b; reflexivity.
Qed.

Lemma wf_array i n j : wf i -> array_info i n = Some j -> wf j.
Proof.
  intros Hi. unfold array_info.
  destruct (t_abstract i || (n <? 1) || (max_object_size <? n * t_size i))
    eqn:E; [discriminate|].
  intros [= <-].
  apply orb_false_iff in E. destruct E as [E E3].
  apply orb_false_iff in E. destruct E as [_ E2].
  apply Z.ltb_ge in E2, E3.
  pose proof (wf_size _ Hi). pose proof (pow2_range _ (wf_align _ Hi)).
  apply wf_scalar.
  - apply (wf_align _ Hi).
  - split; [nia|assumption].
  - rewrite Z.mul_mod by lia. rewrite (wf_mod _ Hi).
    rewrite Z.mul_0_r. apply Z.mod_0_l. lia.
Qed.

Lemma field_align_pow2 spec natural a :
  pow2 natural -> field_align spec natural = Some a ->
  pow2 a /\ natural <= a.
Proof.
  intros Hn. unfold field_align. destruct spec as [r|].
  - destruct (r =? 0); [intros [= <-]; split; [assumption|lia]|].
    destruct (is_pow2 r && (r <=? max_alignment)) eqn:E; [|discriminate].
    intros [= <-]. apply andb_true_iff in E. destruct E as [E1 E2].
    apply Z.leb_le in E2. split; [|lia].
    apply pow2_max; [apply is_pow2_sound|]; assumption.
  - intros [= <-]. split; [assumption|lia].
Qed.

Lemma field_info_Some spec i f :
  field_info spec i = Some f ->
  t_abstract i = false /\ fst (fst f) = t_size i /\ snd f = t_pod i
  /\ field_align spec (t_align i) = Some (snd (fst f)).
Proof.
  unfold field_info. destruct (t_abstract i); [discriminate|].
  intros H. apply bind_Some in H. destruct H as (a & Ha & [= <-]).
  simpl. auto.
Qed.

Lemma wf_field_info spec i f : wf i -> field_info spec i = Some f -> wf_field f.
Proof.
  intros Hi Hf. apply field_info_Some in Hf.
  destruct Hf as (_ & Hs & _ & Ha).
  apply field_align_pow2 in Ha; [|apply (wf_align _ Hi)].
  split; [rewrite Hs; apply (wf_size _ Hi)|apply Ha].
Qed.

(** *** Folding [Z.max] over sizes and alignments *)

Lemma fold_max_pow2 l : Forall pow2 l -> pow2 (fold_right Z.max 1 l).
Proof.
  induction 1; simpl; [apply pow2_one|apply pow2_max; assumption].
Qed.

Lemma fold_max_lower b l : b <= fold_right Z.max b l.
Proof. induction l; simpl; lia. Qed.

Lemma fold_max_In b l x : In x l -> x <= fold_right Z.max b l.
Proof.
  induction l as [|y l IH]; simpl; [contradiction|].
  intros [->|H]; [lia|]. specialize (IH H). lia.
Qed.

Lemma wf_union fs j : Forall wf_field fs -> union_info fs = Some j -> wf j.
Proof.
  intros Hfs. unfold union_info.
  set (al := fold_right Z.max 1 (map (fun f => snd (fst f)) fs)).
  set (m := fold_right Z.max 1 (map (fun f => fst (fst f)) fs)).
  destruct (max_object_size <? align_to m al) eqn:E; [discriminate|].
  intros [= <-]. apply Z.ltb_ge in E.
  assert (Hal : pow2 al).
  { apply fold_max_pow2. apply Forall_map.
    eapply Forall_impl; [|exact Hfs]. intros f Hf. apply Hf. }
  pose proof (pow2_range _ Hal).
  pose proof (fold_max_lower 1 (map (fun f => fst (fst f)) fs)).
  pose proof (align_to_bounds al ltac:(lia) m).
  apply wf_scalar; [assumption|fold m in H0; lia|].
  apply align_to_mod. lia.
Qed.

(** *** The allocation cursor *)

Lemma fold_left_inv {A S} (step : S -> A -> S) (I : S -> Prop) (P : A -> Prop) :
  (forall s x, P x -> I s -> I (step s x)) ->
  forall l s, Forall P l -> I s -> I (fold_left step l s).
Proof.
  intros Hstep l. induction l as [|x l IH]; simpl; intros s Hl Hs.
  - assumption.
  - inversion Hl; subst. apply IH; auto.
Qed.

Lemma cinv_place_member lo c sz al :
  0 <= lo -> 0 <= sz -> pow2 al -> cinv lo c -> cinv lo (place_member c sz al).
Proof.
  intros Hlo Hsz Hal (H1 & H2 & H3 & H4 & H5).
  pose proof (pow2_range _ Hal).
  pose proof (align_to_bounds al ltac:(lia) (dsize c)).
  unfold cinv, place_member; simpl.
  repeat split; try lia. apply pow2_max; assumption.
Qed.

Lemma cinv_place_empty lo c al :
  pow2 al -> cinv lo c -> cinv lo (place_empty c 1 al).
Proof.
  intros Hal (H1 & H2 & H3 & H4 & H5).
  unfold cinv, place_empty; simpl.
  repeat split; try lia. apply pow2_max; assumption.
Qed.

Lemma cinv_place_base lo c b :
  0 <= lo -> wf b -> cinv lo c -> cinv lo (place_base c b).
Proof.
  intros Hlo Hb Hc. unfold place_base. destruct (t_empty b) eqn:E.
  - destruct (wf_empty _ Hb E) as [-> _].
    apply cinv_place_empty; [apply (wf_nvalign _ Hb)|assumption].
  - apply cinv_place_member; auto using wf_nvsize, wf_nvalign.
Qed.

Lemma cinv_place_field lo c f :
  0 <= lo -> wf_field f -> cinv lo c -> cinv lo (place_field c f).
Proof.
  intros Hlo [Hs Ha] Hc. apply cinv_place_member; auto. lia.
Qed.

Lemma pow2_place_vbase c v :
  pow2 (vb_nvalign v) -> pow2 (calign c) -> pow2 (calign (place_vbase c v)).
Proof.
  intros Hv Hc. unfold place_vbase, place_empty, place_member.
  destruct (vb_empty v); simpl; apply pow2_max; assumption.
Qed.

(** *** Bases *)

Lemma drop_primary_incl l : incl (drop_primary l) l.
Proof.
  induction l as [|b l IH]; simpl; [apply incl_refl|].
  destruct (t_dynamic b).
  - apply incl_tl, incl_refl.
  - apply incl_cons; [left; reflexivity|apply incl_tl, IH].
Qed.

Lemma drop_primary_static l :
  existsb t_dynamic l = false -> drop_primary l = l.
Proof.
  induction l as [|b l IH]; simpl; [reflexivity|].
  intros H. apply orb_false_iff in H. destruct H as [-> H].
  f_equal. auto.
Qed.

Lemma find_existsb {A} (p : A -> bool) l :
  existsb p l = match find p l with Some _ => true | None => false end.
Proof.
  induction l as [|a l IH]; simpl; [reflexivity|].
  destruct (p a); simpl; auto.
Qed.

Lemma base_order_Forall (P : tinfo -> Prop) nv :
  Forall P nv -> Forall P (base_order nv).
Proof.
  intros H. unfold base_order. destruct (find t_dynamic nv) as [p|] eqn:E.
  - rewrite Forall_forall in H. constructor.
    + apply H. apply (find_some _ _ E).
    + apply Forall_forall. intros x Hx. apply H.
      apply (drop_primary_incl _ _ Hx).
  - assumption.
Qed.

(** The cursor after the non-virtual bases. *)
Lemma cinv_bases (dynamic : bool) (nv : list tinfo) :
  Forall wf nv ->
  cinv (if dynamic then pointer_size else 0)
       (fold_left place_base (base_order nv) (start_cursor dynamic nv)).
Proof.
  intros Hnv. unfold start_cursor, base_order.
  rewrite find_existsb.
  destruct (find t_dynamic nv) as [p|] eqn:E.
  - (* the primary base brings the virtual table pointer *)
    rewrite andb_false_r. simpl fold_left.
    destruct (find_some _ _ E) as [Hin Hp].
    assert (Hwp : wf p) by (rewrite Forall_forall in Hnv; auto).
    destruct (wf_dynamic _ Hwp Hp) as (He & Ha & Hs).
    apply fold_left_inv with (P := wf).
    + intros s x Hx Hs'. apply cinv_place_base; auto.
      destruct dynamic; unfold pointer_size; lia.
    + apply Forall_forall. intros x Hx.
      rewrite Forall_forall in Hnv. apply Hnv.
      apply (drop_primary_incl _ _ Hx).
    + unfold place_base. rewrite He. unfold place_member, cinv; simpl.
      pose proof (pow2_range _ (wf_nvalign _ Hwp)).
      rewrite align_to_zero by lia.
      destruct dynamic; unfold pointer_size in *;
        (repeat split; try lia;
         apply pow2_max; [apply pow2_one|apply (wf_nvalign _ Hwp)]).
  - rewrite andb_true_r.
    apply fold_left_inv with (P := wf); [|assumption|].
    + intros s x Hx Hs'. apply cinv_place_base; auto.
      destruct dynamic; unfold pointer_size; lia.
    + destruct dynamic; unfold cinv, pointer_size; simpl.
      * repeat split; try lia. exists 3. split; [lia|reflexivity].
      * repeat split; try lia. apply pow2_one.
Qed.

Lemma dedupe_incl seen l : incl (dedupe seen l) l.
Proof.
  revert seen. induction l as [|v l IH]; simpl; intros seen.
  - apply incl_refl.
  - destruct (existsb (String.eqb (vb_name v)) seen).
    + apply incl_tl, IH.
    + apply incl_cons; [left; reflexivity|apply incl_tl, IH].
Qed.

Lemma flat_map_nil {A B} (f : A -> list B) l :
  Forall (fun x => f x = []) l -> flat_map f l = [].
Proof. induction 1 as [|x l Hx _ IH]; simpl; [|rewrite Hx, IH]; reflexivity. Qed.

Lemma nv_Forall (P : tinfo -> Prop) (bs : list (bool * tinfo)) :
  Forall (fun b => P (snd b)) bs ->
  Forall P (map snd (filter (fun b => negb (fst b)) bs)).
Proof.
  intros H. apply Forall_map. apply Forall_forall. intros b Hb.
  apply filter_In in Hb. rewrite Forall_forall in H. apply H, Hb.
Qed.

Lemma graph_vbases_pow2 bs :
  Forall (fun b => wf (snd b)) bs ->
  Forall (fun v => pow2 (vb_nvalign v)) (graph_vbases bs).
Proof.
  intros H. apply Forall_forall. intros v Hv.
  apply dedupe_incl in Hv. apply in_flat_map in Hv.
  destruct Hv as (b & Hb & Hv). rewrite Forall_forall in H.
  specialize (H b Hb). destruct (fst b).
  - destruct Hv as [<-|[]]. apply (wf_nvalign _ H).
  - pose proof (wf_vbases _ H) as Hvb. rewrite Forall_forall in Hvb. auto.
Qed.

Lemma graph_vbases_static bs :
  Forall (fun b => wf (snd b)) bs ->
  existsb (fun b => fst b || t_dynamic (snd b)) bs = false ->
  graph_vbases bs = [].
Proof.
  intros H E. unfold graph_vbases. rewrite flat_map_nil; [reflexivity|].
  apply Forall_forall. intros b Hb.
  rewrite Forall_forall in H. specialize (H b Hb).
  assert (fst b || t_dynamic (snd b) = false) as Hf.
  { destruct (fst b || t_dynamic (snd b)) eqn:E'; [|reflexivity].
    rewrite <- E. symmetry. apply existsb_exists. eauto. }
  apply orb_false_iff in Hf. destruct Hf as [-> Hd].
  apply (wf_static _ H Hd).
Qed.

Lemma static_no_virtual (bs : list (bool * tinfo)) :
  existsb (fun b => fst b || t_dynamic (snd b)) bs = false ->
  filter (fun b => negb (fst b)) bs = bs
  /\ existsb t_dynamic (map snd bs) = false.
Proof.
  induction bs as [|b bs IH]; simpl; [auto|].
  intros H. apply orb_false_iff in H. destruct H as [Hb H].
  apply orb_false_iff in Hb. destruct Hb as [Hv Hd].
  destruct (IH H) as [IH1 IH2]. rewrite Hv, Hd, IH2. simpl.
  rewrite IH1. auto.
Qed.

(** The cursor over a run of empty bases. *)
Lemma empty_bases_cursor l c :
  Forall (fun b => wf b /\ t_empty b = true) l ->
  csize c <= 1 -> calign c = 1 ->
  let c' := fold_left place_base l c in
  csize c' <= 1 /\ calign c' = 1.
Proof.
  intros H. revert c. induction H as [|b l [Hb He] _ IH]; simpl; intros c Hs Ha.
  - auto.
  - apply IH; unfold place_base; rewrite He; simpl;
      destruct (wf_empty _ Hb He) as [E1 E2]; rewrite ?E1, ?E2; lia.
Qed.

Lemma wf_class_info name h bs fs i :
  Forall (fun b => wf (snd b)) bs -> Forall wf_field fs ->
  class_info name h bs fs = Some i -> wf i.
Proof.
  intros Hbs Hfs. unfold class_info.
  destruct (forallb base_ok bs) eqn:Hok; [|discriminate]. simpl negb. cbv iota.
  fold (dynamic_of h bs).
  set (nv := map snd (filter (fun b => negb (fst b)) bs)).
  set (c1 := fold_left place_base (base_order nv)
               (start_cursor (dynamic_of h bs) nv)).
  set (c2 := fold_left place_field fs c1).
  set (c3 := fold_left place_vbase (graph_vbases bs) c2).
  cbv zeta.
  destruct (max_object_size <? final_size c3) eqn:Hfit; [discriminate|].
  intros [= <-]. apply Z.ltb_ge in Hfit.
  set (lo := if dynamic_of h bs then pointer_size else 0).
  assert (Hlo : 0 <= lo) by (unfold lo, pointer_size; destruct dynamic_of; lia).
  assert (Hc1 : cinv lo c1) by (apply cinv_bases, nv_Forall, Hbs).
  assert (Hc2 : cinv lo c2).
  { apply fold_left_inv with (P := wf_field); auto.
    intros s x Hx Hs. apply cinv_place_field; auto. }
  assert (Hvb := graph_vbases_pow2 bs Hbs).
  assert (Hc3 : pow2 (calign c3)).
  { apply fold_left_inv
      with (I := fun c => pow2 (calign c)) (P := fun v => pow2 (vb_nvalign v));
      [intros; apply pow2_place_vbase; assumption|assumption|apply Hc2]. }
  pose proof (pow2_range _ Hc3) as Hr3.
  destruct Hc2 as (Hd1 & Hd2 & Hd3 & Hd4 & Hd5).
  pose proof (pow2_range _ Hd4) as Hr2.
  pose proof (align_to_bounds (calign c3) ltac:(lia) (Z.max (csize c3) 1)) as Hb3.
  constructor; simpl.
  - assumption.
  - assumption.
  - unfold final_size in *. lia.
  - apply align_to_mod. lia.
  - destruct (_ && _ && _ && _); [unfold final_size; lia|lia].
  - (* abstract classes are dynamic *)
    intros Ha. unfold dynamic_of. apply orb_true_iff in Ha.
    destruct Ha as [->|Ha]; [rewrite orb_true_r; reflexivity|].
    apply andb_true_iff in Ha. destruct Ha as [Ha _].
    apply existsb_exists in Ha. destruct Ha as (b & Hb & Ha).
    rewrite Forall_forall in Hbs.
    apply orb_true_iff. right. apply existsb_exists. exists b.
    split; [assumption|]. rewrite (wf_abstract _ (Hbs b Hb) Ha).
    apply orb_true_r.
  - reflexivity.
  - intros Hdyn. unfold lo in *. rewrite Hdyn in *.
    rewrite andb_false_r. simpl. repeat split; lia.
  - (* empty classes *)
    intros He. apply andb_true_iff in He. destruct He as [He Hbe].
    apply andb_true_iff in He. destruct He as [Hdyn Hnf].
    apply negb_true_iff in Hdyn. destruct fs; [|discriminate].
    assert (Hst : existsb (fun b => fst b || t_dynamic (snd b)) bs = false).
    { unfold dynamic_of in Hdyn. apply orb_false_iff in Hdyn. apply Hdyn. }
    destruct (static_no_virtual bs Hst) as [Hnv Hnd].
    assert (Hvbs : graph_vbases bs = []) by (apply graph_vbases_static; auto).
    assert (Hc : csize c1 <= 1 /\ calign c1 = 1).
    { unfold c1, nv, base_order, start_cursor. rewrite Hnv.
      rewrite find_existsb in Hnd.
      destruct (find t_dynamic (map snd bs)); [discriminate|].
      rewrite Hdyn. simpl andb. cbv iota.
      apply empty_bases_cursor; simpl; try lia.
      apply Forall_map. apply Forall_forall. intros b Hb.
      rewrite Forall_forall in Hbs. rewrite forallb_forall in Hbe. auto. }
    unfold c3, final_size. rewrite Hvbs. simpl. unfold c2. simpl.
    destruct Hc as [Hcs ->]. split; [|reflexivity].
    unfold align_to. rewrite Z.div_1_r. lia.
  - (* classes without a virtual table pointer have no virtual base *)
    intros Hdyn. apply graph_vbases_static; [assumption|].
    unfold dynamic_of in Hdyn. apply orb_false_iff in Hdyn. apply Hdyn.
  - (* dynamic classes without virtual bases *)
    intros Hdyn Hvbs. unfold c3, final_size. rewrite Hvbs. simpl.
    unfold lo in *. rewrite Hdyn in *. rewrite andb_false_r. simpl.
    unfold pointer_size in *. split; [reflexivity|]. f_equal. lia.
  - assumption.
Qed.

Lemma fields_wf (ms : list (option Z * ty)) fs :
  Forall (fun m => forall i, layout (snd m) = Some i -> wf i) ms ->
  mapM (fun m => i <- layout (snd m) ;; field_info (fst m) i) ms = Some fs ->
  Forall wf_field fs.
Proof.
  intros IH H. apply mapM_Forall2 in H.
  induction H as [|m f ms fs Hm _ IHf]; [constructor|].
  inversion IH; subst. constructor; [|auto].
  apply bind_Some in Hm. destruct Hm as (i & Hi & Hf).
  eapply wf_field_info; eauto.
Qed.

Lemma bases_wf (bs : list (bool * ty)) bi :
  Forall (fun b => forall i, layout (snd b) = Some i -> wf i) bs ->
  mapM (fun b => i <- layout (snd b) ;; Some (fst b, i)) bs = Some bi ->
  Forall (fun b => wf (snd b)) bi.
Proof.
  intros IH H. apply mapM_Forall2 in H.
  induction H as [|b j bs bi Hb _ IHb]; [constructor|].
  inversion IH; subst. constructor; [|auto].
  apply bind_Some in Hb. destruct Hb as (i & Hi & [= <-]). simpl. auto.
Qed.

(** Every type the compiler accepts is laid out well. *)
Lemma layout_wf t : forall i, layout t = Some i -> wf i.
Proof.
  induction t as [b|e n IH|ms IH|name h bs fs IHb IHf] using ty_nested_ind;
    simpl; intros i H.
  - injection H as <-. apply wf_builtin.
  - apply bind_Some in H. destruct H as (j & Hj & H).
    eapply wf_array; eauto.
  - apply bind_Some in H. destruct H as (fi & Hfi & H).
    eapply wf_union; [|exact H]. eapply fields_wf; eauto.
  - destruct (distinct (map snd bs)); [|discriminate]. cbn [negb] in H.
    apply bind_Some in H. destruct H as (bi & Hbi & H).
    apply bind_Some in H. destruct H as (fi & Hfi & H).
    eapply wf_class_info; [| |exact H].
    + eapply bases_wf; eauto.
    + eapply fields_wf; eauto.
Qed.

(** ** Layout of the header's helper types *)

(** A class without bases and virtual functions. *)
Lemma plain_class_info name trivial fs :
  class_info name (plain_class trivial) [] fs =
  let c := fold_left place_field fs {| dsize := 0; csize := 0; calign := 1 |} in
  if max_object_size <? final_size c then None
  else Some {| t_name := name; t_size := final_size c; t_align := calign c;
               t_nvsize := if trivial && forallb snd fs
                           then final_size c else dsize c;
               t_nvalign := calign c; t_class := true; t_dynamic := false;
               t_abstract := false;
               t_empty := match fs with [] => true | _ => false end;
               t_pod := trivial && forallb snd fs; t_vbases := [] |}.
Proof.
  unfold class_info, plain_class. simpl.
  destruct (max_object_size <? _); [reflexivity|].
  destruct trivial; simpl; destruct fs; reflexivity.
Qed.

Lemma field_info_plain i :
  t_abstract i = false ->
  field_info None i = Some (t_size i, t_align i, t_pod i).
Proof. unfold field_info. intros ->. reflexivity. Qed.

Lemma char_then_T_cursor s a p :
  0 < a -> 1 <= s ->
  fold_left place_field [(1, 1, true); (s, a, p)]
    {| dsize := 0; csize := 0; calign := 1 |}
  = {| dsize := a + s; csize := a + s; calign := a |}.
Proof.
  intros Ha Hs. cbn [fold_left]. unfold place_field, place_member.
  cbn [dsize csize calign fst snd].
  change (align_to 0 1) with 0. rewrite Z.add_0_l.
  rewrite align_to_one by lia. f_equal; lia.
Qed.

(** [struct { char x; T t; }] puts [t] at the alignment of [T]. *)
Lemma char_then_T_layout name T i :
  layout T = Some i -> t_abstract i = false ->
  t_size i + t_align i <= max_object_size ->
  exists j,
    layout (Class name (plain_class false) []
              [member (Builtin Char); member T]) = Some j
    /\ t_size j = t_align i + t_size i /\ t_align j = t_align i
    /\ t_abstract j = false.
Proof.
  intros HT Hab Hfit. pose proof (layout_wf _ _ HT) as Hw.
  pose proof (pow2_range _ (wf_align _ Hw)) as Ha.
  pose proof (wf_size _ Hw) as Hs. pose proof (wf_mod _ Hw) as Hm.
  cbn [layout mapM bind member fst snd]. rewrite HT.
  cbn [bind]. rewrite (field_info_plain i Hab).
  change (field_info None (builtin_info Char)) with (Some (1, 1, true)).
  cbn [bind]. rewrite plain_class_info. cbv zeta.
  rewrite char_then_T_cursor by lia.
  unfold final_size. cbn [dsize csize calign].
  replace (Z.max (t_align i + t_size i) 1)
    with (1 * t_align i + t_size i) by lia.
  rewrite align_to_shift by lia.
  rewrite (align_to_multiple (t_align i)) by (lia || assumption).
  destruct (max_object_size <? _) eqn:E; [apply Z.ltb_lt in E; lia|].
  eexists. split; [reflexivity|].
  cbn [t_size t_align t_abstract]. repeat split; lia.
Qed.

Lemma align_to_small a x : 0 < x <= a -> align_to x a = a.
Proof.
  intros H. unfold align_to.
  replace (x + a - 1) with ((x - 1) + 1 * a) by lia.
  rewrite Z.div_add by lia. rewrite Z.div_small by lia. lia.
Qed.

(** [sizeof(helper) - sizeof(T)] cast to [unsigned], when the helper is
    [a] bytes larger than [T] and [a] is an alignment. *)
Lemma subtract_sizes s a :
  1 <= a <= max_alignment ->
  static_cast_unsigned (size_t_sub (a + s) s) = a.
Proof.
  intros Ha. unfold static_cast_unsigned, size_t_sub, max_alignment in *.
  replace (a + s - s) with a by lia.
  unfold size_t_bits, unsigned_bits.
  rewrite (Z.mod_small a (2 ^ 64)) by lia.
  apply Z.mod_small. lia.
Qed.

Lemma AlignOf_unfold T i impl j :
  layout T = Some i ->
  AlignmentCalcImpl T = Some impl ->
  layout impl = Some j ->
  exists r, AlignOf T = Some r
    /\ Alignment r = static_cast_unsigned (size_t_sub (t_size j) (t_size i)).
Proof.
  intros HT Himpl Hj. unfold AlignOf, sizeof. rewrite Himpl. cbn [bind].
  rewrite Hj, HT. cbn [bind]. eexists. split; reflexivity.
Qed.

Lemma AlignOf_concrete T i :
  layout T = Some i -> t_abstract i = false ->
  t_size i + t_align i <= max_object_size ->
  exists r, AlignOf T = Some r /\ Alignment r = t_align i.
Proof.
  intros HT Hab Hfit.
  destruct (char_then_T_layout "AlignmentCalcImpl"%string T i HT Hab Hfit)
    as (j & Hj & Hsz & _).
  assert (Himpl : AlignmentCalcImpl T = Some (Class "AlignmentCalcImpl"%string (plain_class false) []
                                        [member (Builtin Char); member T])).
  { unfold AlignmentCalcImpl, is_abstract. rewrite HT. cbn [bind].
    rewrite Hab. reflexivity. }
  destruct (AlignOf_unfold T i _ j HT Himpl Hj) as (r & Hr & Ha).
  exists r. split; [assumption|]. rewrite Ha, Hsz.
  apply subtract_sizes. apply pow2_range, (wf_align _ (layout_wf _ _ HT)).
Qed.

(** C1.  For a complete type [T] that is not abstract,
    [AlignOf<T>::Alignment], computed as
    [sizeof(AlignmentCalcImpl<T>) - sizeof(T)] over the aggregate of one
    [char] followed by one [T], is the alignment the compiler gives [T].
    The aggregate has to be a type the compiler accepts: [T] and its
    padding must fit the largest object size. *)
Theorem AlignOf_is_alignof (T : ty) (s a : Z) :
  is_abstract T = Some false ->
  sizeof T = Some s ->
  alignof T = Some a ->
  s + a <= max_object_size ->
  exists r, AlignOf T = Some r /\ Alignment r = a.
Proof.
  unfold is_abstract, sizeof, alignof. intros Hab Hs Ha Hfit.
  destruct (layout T) as [i|] eqn:HT; [|discriminate].
  cbn [bind] in *. injection Hab as Hab. injection Hs as <-.
  injection Ha as <-. apply AlignOf_concrete; assumption.
Qed.

Lemma AlignOf_is_alignof_witness :
  exists r, AlignOf (Array (Builtin Short) 7) = Some r /\ Alignment r = 2.
Proof.
  apply (AlignOf_is_alignof (Array (Builtin Short) 7) 14 2);
    [reflexivity|reflexivity|reflexivity|vm_compute; discriminate].
Defined.

(** *** The abstract path *)

(** *** Type identity *)

Lemma builtin_eqb_eq x y : builtin_eqb x y = true -> x = y.
Proof. destruct x, y; (reflexivity || discriminate). Qed.

Lemma head_eqb_eq h h' : head_eqb h h' = true -> h = h'.
Proof.
  destruct h as [a b c d], h' as [a' b' c' d']. unfold head_eqb.
  cbn [c_virtual c_pure c_overrides c_trivial]. intros H.
  apply andb_true_iff in H. destruct H as [H Hd].
  apply andb_true_iff in H. destruct H as [H Hc].
  apply andb_true_iff in H. destruct H as [Ha Hb].
  apply Bool.eqb_prop in Ha, Hb, Hc, Hd. congruence.
Qed.

Lemma spec_eqb_eq a b : spec_eqb a b = true -> a = b.
Proof.
  destruct a as [x|], b as [y|]; cbn; intros H;
    [apply Z.eqb_eq in H; congruence|discriminate|discriminate|reflexivity].
Qed.

Lemma list_eqb_eq {A} (eqb : A -> A -> bool) l :
  Forall (fun a => forall b, eqb a b = true -> a = b) l ->
  forall l', list_eqb eqb l l' = true -> l = l'.
Proof.
  induction 1 as [|a l Ha _ IH]; intros [|a' l'] H;
    try reflexivity; try discriminate.
  cbn in H. apply andb_true_iff in H. destruct H as [H1 H2].
  f_equal; auto.
Qed.

Lemma ty_eqb_eq a : forall b, ty_eqb a b = true -> a = b.
Proof.
  induction a as [x|e n IH|ms IH|name h bs fs IHb IHf] using ty_nested_ind;
    intros [y|e' n'|ms'|name' h' bs' fs'] H; try discriminate; cbn in H.
  - apply builtin_eqb_eq in H. congruence.
  - apply andb_true_iff in H. destruct H as [H1 H2].
    apply Z.eqb_eq in H2. apply IH in H1. congruence.
  - f_equal. revert H. apply list_eqb_eq.
    eapply Forall_impl; [|exact IH]. intros [s t] Ht [s' t'] H.
    cbn [fst snd] in *. apply andb_true_iff in H. destruct H as [H1 H2].
    apply spec_eqb_eq in H1. apply Ht in H2. congruence.
  - apply andb_true_iff in H. destruct H as [H Hfs].
    apply andb_true_iff in H. destruct H as [H Hbs].
    apply andb_true_iff in H. destruct H as [Hn Hh].
    apply String.eqb_eq in Hn. apply head_eqb_eq in Hh. f_equal; auto.
    + revert Hbs. apply list_eqb_eq.
      eapply Forall_impl; [|exact IHb]. intros [v t] Ht [v' t'] H.
      cbn [fst snd] in *. apply andb_true_iff in H. destruct H as [H1 H2].
      apply Bool.eqb_prop in H1. apply Ht in H2. congruence.
    + revert Hfs. apply list_eqb_eq.
      eapply Forall_impl; [|exact IHf]. intros [s t] Ht [s' t'] H.
      cbn [fst snd] in *. apply andb_true_iff in H. destruct H as [H1 H2].
      apply spec_eqb_eq in H1. apply Ht in H2. congruence.
Qed.

Lemma layout_Class name h bs fs :
  distinct (map snd bs) = true ->
  layout (Class name h bs fs)
  = (bi <- mapM (fun b => i <- layout (snd b) ;; Some (fst b, i)) bs ;;
     fi <- mapM (fun m => i <- layout (snd m) ;; field_info (fst m) i) fs ;;
     class_info name h bi fi).
Proof. intros H. cbn [layout]. rewrite H. reflexivity. Qed.

Lemma distinct_pair a b : a <> b -> distinct [a; b] = true.
Proof.
  intros Hne. cbn. destruct (ty_eqb a b) eqn:E; [|reflexivity].
  apply ty_eqb_eq in E. contradiction.
Qed.

Lemma Base_layout :
  layout AlignmentCalcImplBase
  = Some {| t_name := "AlignmentCalcImplBase"%string; t_size := 8; t_align := 8;
            t_nvsize := 8; t_nvalign := 8; t_class := true;
            t_dynamic := true; t_abstract := true; t_empty := false;
            t_pod := false; t_vbases := [] |}.
Proof. reflexivity. Qed.

Lemma Base_and_T_layout T i :
  layout T = Some i -> t_abstract i = true -> t_vbases i = [] ->
  t_size i + t_align i <= max_object_size ->
  T <> AlignmentCalcImplBase ->
  exists j,
    layout (Class "AlignmentCalcImpl"%string pure_dtor_class
              [(false, AlignmentCalcImplBase); (false, T)] []) = Some j
    /\ t_size j = t_align i + t_size i.
Proof.
  intros HT Hab Hvb Hfit Hnb. pose proof (layout_wf _ _ HT) as Hw.
  pose proof (wf_abstract _ Hw Hab) as Hdyn.
  pose proof (wf_class _ Hw Hdyn) as Hcl.
  destruct (wf_dynamic _ Hw Hdyn) as (Hne & Hpa & Hps).
  destruct (wf_novb _ Hw Hdyn Hvb) as (Hal & Hsz).
  pose proof (pow2_range _ (wf_nvalign _ Hw)) as Ha.
  unfold pointer_size in *.
  rewrite layout_Class by (apply distinct_pair; intros E; apply Hnb; symmetry; exact E).
  cbn [mapM bind fst snd]. rewrite Base_layout, HT. cbn [bind].
  unfold class_info, base_ok, graph_vbases, base_order, start_cursor.
  cbn [forallb map filter fst snd negb andb orb existsb find flat_map app
       t_class t_dynamic t_vbases t_abstract t_empty t_nvsize t_nvalign
       t_size c_virtual c_pure c_overrides c_trivial pure_dtor_class
       drop_primary fold_left place_base].
  unfold place_base. rewrite Hcl, Hvb, Hne. cbn [andb negb dedupe app fold_left place_base].
  unfold final_size, place_member. cbn [dsize csize calign].
  change (align_to 0 8) with 0. cbn [Z.add].
  rewrite (align_to_small (t_nvalign i) 8) by lia.
  replace (Z.max (Z.max (Z.max 0 8) (t_nvalign i + t_nvsize i)) 1)
    with (1 * t_nvalign i + t_nvsize i) by lia.
  replace (Z.max (Z.max 1 8) (t_nvalign i)) with (t_nvalign i) by lia.
  rewrite align_to_shift by lia. rewrite <- Hal, <- Hsz.
  destruct (max_object_size <? _) eqn:E; [apply Z.ltb_lt in E; lia|].
  eexists. split; [reflexivity|]. cbn [t_size]. lia.
Qed.

Lemma AlignOf_abstract T i :
  layout T = Some i -> t_abstract i = true -> t_vbases i = [] ->
  t_size i + t_align i <= max_object_size ->
  T <> AlignmentCalcImplBase ->
  exists r, AlignOf T = Some r /\ Alignment r = t_align i.
Proof.
  intros HT Hab Hvb Hfit Hnb.
  destruct (Base_and_T_layout T i HT Hab Hvb Hfit Hnb) as (j & Hj & Hsz).
  assert (Himpl : AlignmentCalcImpl T = Some (Class "AlignmentCalcImpl"%string pure_dtor_class
               [(false, AlignmentCalcImplBase); (false, T)] [])).
  { unfold AlignmentCalcImpl, is_abstract. rewrite HT. cbn [bind].
    rewrite Hab. reflexivity. }
  destruct (AlignOf_unfold T i _ j HT Himpl Hj) as (r & Hr & Ha).
  exists r. split; [assumption|]. rewrite Ha, Hsz.
  apply subtract_sizes. apply pow2_range, (wf_align _ (layout_wf _ _ HT)).
Qed.

Lemma ConcreteSubtype_layout T i :
  layout T = Some i -> t_abstract i = true -> t_vbases i = [] ->
  exists j, layout (ConcreteSubtype T) = Some j
    /\ t_size j = t_size i /\ t_align j = t_align i /\ t_abstract j = false.
Proof.
  intros HT Hab Hvb. pose proof (layout_wf _ _ HT) as Hw.
  pose proof (wf_abstract _ Hw Hab) as Hdyn.
  pose proof (wf_class _ Hw Hdyn) as Hcl.
  destruct (wf_dynamic _ Hw Hdyn) as (Hne & Hpa & Hps).
  destruct (wf_novb _ Hw Hdyn Hvb) as (Hal & Hsz).
  pose proof (pow2_range _ (wf_nvalign _ Hw)) as Ha.
  pose proof (wf_size _ Hw) as Hs.
  unfold pointer_size in *. unfold ConcreteSubtype.
  cbn [layout mapM bind fst snd]. rewrite HT. cbn [bind].
  unfold class_info, base_ok, graph_vbases, base_order, start_cursor.
  cbn [forallb map filter fst snd negb andb orb existsb find flat_map app
       c_virtual c_pure c_overrides c_trivial fold_left].
  rewrite Hcl, Hdyn, Hvb.
  cbn [andb negb orb dedupe app fold_left drop_primary].
  rewrite Hdyn. cbn [fold_left]. unfold place_base. rewrite Hne.
  unfold final_size, place_member. cbn [dsize csize calign].
  rewrite align_to_zero by lia. cbn [Z.add].
  replace (Z.max (Z.max 0 (t_nvsize i)) 1) with (t_nvsize i) by lia.
  replace (Z.max 1 (t_nvalign i)) with (t_nvalign i) by lia.
  rewrite <- Hal, <- Hsz. rewrite andb_false_r.
  destruct (max_object_size <? _) eqn:E; [apply Z.ltb_lt in E; lia|].
  eexists. split; [reflexivity|]. cbn [t_size t_align t_abstract]. auto.
Qed.

(** Without virtual bases, the abstract path agrees with a measurement on
    a concrete class that derives from [T] and adds no state. *)
Lemma AlignOf_abstract_agrees T i :
  layout T = Some i -> t_abstract i = true -> t_vbases i = [] ->
  t_size i + t_align i <= max_object_size ->
  T <> AlignmentCalcImplBase ->
  exists r r',
    AlignOf T = Some r /\ AlignOf (ConcreteSubtype T) = Some r'
    /\ Alignment r = Alignment r'
    /\ alignof (ConcreteSubtype T) = Some (Alignment r).
Proof.
  intros HT Hab Hvb Hfit Hnb.
  destruct (AlignOf_abstract T i HT Hab Hvb Hfit Hnb) as (r & Hr & Ha).
  destruct (ConcreteSubtype_layout T i HT Hab Hvb) as (j & Hj & Hs & Hal & Hc).
  destruct (AlignOf_concrete _ j Hj Hc) as (r' & Hr' & Ha'); [lia|].
  exists r, r'. repeat split; try assumption; [lia|].
  unfold alignof. rewrite Hj. cbn [bind]. congruence.
Qed.

(** X2.  For every complete type without virtual base classes, abstract
    or not, other than [AlignmentCalcImplBase] itself, whose helper fits
    the largest object size, [AlignOf<T>::Alignment] is a power of two
    and at least 1, and the helper [AlignmentCalcImpl<T>] is strictly
    larger than [T]. *)
Lemma AlignOf_pow2 T i :
  layout T = Some i -> t_vbases i = [] ->
  t_size i + t_align i <= max_object_size ->
  T <> AlignmentCalcImplBase ->
  exists r impl s,
    AlignOf T = Some r /\ pow2 (Alignment r) /\ 1 <= Alignment r
    /\ AlignmentCalcImpl T = Some impl /\ sizeof impl = Some s
    /\ t_size i < s.
Proof.
  intros HT Hvb Hfit Hnb. pose proof (layout_wf _ _ HT) as Hw.
  pose proof (pow2_range _ (wf_align _ Hw)) as Hr.
  destruct (t_abstract i) eqn:Hab.
  - destruct (AlignOf_abstract T i HT Hab Hvb Hfit Hnb) as (r & Hr' & Ha).
    destruct (Base_and_T_layout T i HT Hab Hvb Hfit Hnb) as (j & Hj & Hsz).
    exists r, (Class "AlignmentCalcImpl"%string pure_dtor_class
                 [(false, AlignmentCalcImplBase); (false, T)] []), (t_size j).
    rewrite Ha. repeat split; try assumption; try lia.
    + apply (wf_align _ Hw).
    + unfold AlignmentCalcImpl, is_abstract. rewrite HT. cbn [bind].
      rewrite Hab. reflexivity.
    + unfold sizeof. rewrite Hj. reflexivity.
  - destruct (AlignOf_concrete T i HT Hab Hfit) as (r & Hr' & Ha).
    destruct (char_then_T_layout "AlignmentCalcImpl"%string T i HT Hab Hfit)
      as (j & Hj & Hsz & _).
    exists r, (Class "AlignmentCalcImpl"%string (plain_class false) []
                 [member (Builtin Char); member T]), (t_size j).
    rewrite Ha. repeat split; try assumption; try lia.
    + apply (wf_align _ Hw).
    + unfold AlignmentCalcImpl, is_abstract. rewrite HT. cbn [bind].
      rewrite Hab. reflexivity.
    + unfold sizeof. rewrite Hj. reflexivity.
Qed.

(** C2.  The abstract path at
    [struct V { long double ld; }; struct T : virtual V { virtual void f() = 0; };]:
    [T] is abstract and aligned on 16 bytes, a concrete class deriving
    from [T] without adding state is aligned on 16 bytes and measured as
    such, yet [alignOf<T>()] is 0. *)
Theorem AlignOf_abstract_virtual_base :
  is_abstract AbstractOverVBase = Some true
  /\ alignof AbstractOverVBase = Some 16
  /\ alignOf AbstractOverVBase = Some 0
  /\ is_abstract (ConcreteSubtype AbstractOverVBase) = Some false
  /\ alignof (ConcreteSubtype AbstractOverVBase) = Some 16
  /\ alignOf (ConcreteSubtype AbstractOverVBase) = Some 16.
Proof. repeat split; vm_compute; reflexivity. Qed.

(** C8.  At the same abstract class over a virtual base, the helper
    [AlignmentCalcImpl<T>] is exactly as large as [T] (32 bytes each), so
    [AlignOf<T>::Alignment] is 0: not at least 1, and not a power of two. *)
Theorem Alignment_zero_virtual_base :
  exists impl r,
    AlignmentCalcImpl AbstractOverVBase = Some impl
    /\ sizeof impl = Some 32
    /\ sizeof AbstractOverVBase = Some 32
    /\ AlignOf AbstractOverVBase = Some r
    /\ Alignment r = 0
    /\ ~ pow2 (Alignment r).
Proof.
  eexists. eexists. split; [reflexivity|].
  split; [reflexivity|]. split; [reflexivity|].
  split; [vm_compute; reflexivity|]. split; [reflexivity|].
  cbn [Alignment]. intros H. apply pow2_range in H. lia.
Qed.

Lemma AlignOf_flags T r :
  AlignOf T = Some r ->
  Alignment_GreaterEqual_2Bytes r = (if 2 <=? Alignment r then 1 else 0)
  /\ Alignment_GreaterEqual_4Bytes r = (if 4 <=? Alignment r then 1 else 0)
  /\ Alignment_GreaterEqual_8Bytes r = (if 8 <=? Alignment r then 1 else 0)
  /\ Alignment_GreaterEqual_16Bytes r = (if 16 <=? Alignment r then 1 else 0)
  /\ Alignment_LessEqual_2Bytes r = (if Alignment r <=? 2 then 1 else 0)
  /\ Alignment_LessEqual_4Bytes r = (if Alignment r <=? 4 then 1 else 0)
  /\ Alignment_LessEqual_8Bytes r = (if Alignment r <=? 8 then 1 else 0)
  /\ Alignment_LessEqual_16Bytes r = (if Alignment r <=? 16 then 1 else 0).
Proof.
  unfold AlignOf. intros H.
  apply bind_Some in H. destruct H as (impl & _ & H).
  apply bind_Some in H. destruct H as (s1 & _ & H).
  apply bind_Some in H. destruct H as (s2 & _ & H).
  injection H as <-. cbn. repeat split; reflexivity.
Qed.

Lemma flag_ge k a : (if k <=? a then 1 else 0) = 1 <-> k <= a.
Proof. destruct (Z.leb_spec k a); split; intros; lia. Qed.

Lemma flag_bit k a :
  (if k <=? a then 1 else 0) = 0 \/ (if k <=? a then 1 else 0) = 1.
Proof. destruct (k <=? a); auto. Qed.

(** C9.  The eight threshold constants of [AlignOf<T>] are the
    comparisons of [Alignment] with 2, 4, 8 and 16:
    [Alignment_GreaterEqual_kBytes] is 1 exactly when [Alignment >= k],
    [Alignment_LessEqual_kBytes] is 1 exactly when [Alignment <= k], and
    each of them is 0 or 1. *)
Theorem threshold_constants (T : ty) (r : AlignOf_members) :
  AlignOf T = Some r ->
  (Alignment_GreaterEqual_2Bytes r = 1 <-> 2 <= Alignment r)
  /\ (Alignment_GreaterEqual_4Bytes r = 1 <-> 4 <= Alignment r)
  /\ (Alignment_GreaterEqual_8Bytes r = 1 <-> 8 <= Alignment r)
  /\ (Alignment_GreaterEqual_16Bytes r = 1 <-> 16 <= Alignment r)
  /\ (Alignment_LessEqual_2Bytes r = 1 <-> Alignment r <= 2)
  /\ (Alignment_LessEqual_4Bytes r = 1 <-> Alignment r <= 4)
  /\ (Alignment_LessEqual_8Bytes r = 1 <-> Alignment r <= 8)
  /\ (Alignment_LessEqual_16Bytes r = 1 <-> Alignment r <= 16)
  /\ Forall (fun flag => flag = 0 \/ flag = 1)
       [Alignment_GreaterEqual_2Bytes r; Alignment_GreaterEqual_4Bytes r;
        Alignment_GreaterEqual_8Bytes r; Alignment_GreaterEqual_16Bytes r;
        Alignment_LessEqual_2Bytes r; Alignment_LessEqual_4Bytes r;
        Alignment_LessEqual_8Bytes r; Alignment_LessEqual_16Bytes r].
Proof.
  intros H.
  destruct (AlignOf_flags T r H) as (-> & -> & -> & -> & -> & -> & -> & ->).
  repeat split; try apply flag_ge.
  repeat (apply Forall_cons; [apply flag_bit|]). apply Forall_nil.
Qed.

Lemma threshold_constants_witness :
  exists r, AlignOf (Builtin Int) = Some r
    /\ (Alignment_GreaterEqual_4Bytes r = 1 <-> 4 <= Alignment r).
Proof.
  eexists. split; [reflexivity|].
  destruct (threshold_constants (Builtin Int) _ eq_refl) as (_ & H & _).
  exact H.
Defined.

(** C10.  The threshold constants of [AlignOf<T>] are consistent: the
    greater-equal flags are monotone downwards from 16 to 2, the
    less-equal flags are monotone upwards from 2 to 16, for each [k] at
    least one of the two flags is 1, and both are 1 exactly when
    [Alignment] is [k]. *)
Theorem threshold_constants_consistent (T : ty) (r : AlignOf_members) :
  AlignOf T = Some r ->
  (Alignment_GreaterEqual_16Bytes r = 1 -> Alignment_GreaterEqual_8Bytes r = 1)
  /\ (Alignment_GreaterEqual_8Bytes r = 1 -> Alignment_GreaterEqual_4Bytes r = 1)
  /\ (Alignment_GreaterEqual_4Bytes r = 1 -> Alignment_GreaterEqual_2Bytes r = 1)
  /\ (Alignment_LessEqual_2Bytes r = 1 -> Alignment_LessEqual_4Bytes r = 1)
  /\ (Alignment_LessEqual_4Bytes r = 1 -> Alignment_LessEqual_8Bytes r = 1)
  /\ (Alignment_LessEqual_8Bytes r = 1 -> Alignment_LessEqual_16Bytes r = 1)
  /\ (Alignment_GreaterEqual_2Bytes r = 1 \/ Alignment_LessEqual_2Bytes r = 1)
  /\ (Alignment_GreaterEqual_4Bytes r = 1 \/ Alignment_LessEqual_4Bytes r = 1)
  /\ (Alignment_GreaterEqual_8Bytes r = 1 \/ Alignment_LessEqual_8Bytes r = 1)
  /\ (Alignment_GreaterEqual_16Bytes r = 1 \/ Alignment_LessEqual_16Bytes r = 1)
  /\ (Alignment_GreaterEqual_2Bytes r = 1 /\ Alignment_LessEqual_2Bytes r = 1
      <-> Alignment r = 2)
  /\ (Alignment_GreaterEqual_4Bytes r = 1 /\ Alignment_LessEqual_4Bytes r = 1
      <-> Alignment r = 4)
  /\ (Alignment_GreaterEqual_8Bytes r = 1 /\ Alignment_LessEqual_8Bytes r = 1
      <-> Alignment r = 8)
  /\ (Alignment_GreaterEqual_16Bytes r = 1 /\ Alignment_LessEqual_16Bytes r = 1
      <-> Alignment r = 16).
Proof.
  intros H.
  destruct (AlignOf_flags T r H) as (-> & -> & -> & -> & -> & -> & -> & ->).
  rewrite !flag_ge.
  repeat split; intros; lia.
Qed.

Lemma threshold_constants_consistent_witness :
  exists r, AlignOf (Builtin Double) = Some r
    /\ (Alignment_GreaterEqual_8Bytes r = 1 /\ Alignment_LessEqual_8Bytes r = 1
        <-> Alignment r = 8).
Proof.
  eexists. split; [reflexivity|].
  destruct (threshold_constants_consistent (Builtin Double) _ eq_refl)
    as (_ & _ & _ & _ & _ & _ & _ & _ & _ & _ & _ & _ & H & _).
  exact H.
Defined.

(** ** Aligned storage *)

Lemma pow2_is_pow2 a : pow2 a -> is_pow2 a = true.
Proof.
  intros (k & Hk & ->). unfold is_pow2.
  rewrite Z.log2_pow2 by lia. rewrite Z.eqb_refl.
  pose proof (Z.pow_pos_nonneg 2 k). apply andb_true_iff. split; [|reflexivity].
  apply Z.ltb_lt. lia.
Qed.

Lemma char_buffer_info Size :
  1 <= Size <= max_object_size ->
  array_info (builtin_info Char) Size = Some (scalar_info Size 1 true).
Proof.
  intros H. unfold array_info, builtin_info.
  cbn [t_abstract t_size t_align t_pod scalar_info builtin_size orb].
  rewrite Z.mul_1_r.
  destruct (Size <? 1) eqn:E1; [apply Z.ltb_lt in E1; lia|].
  destruct (max_object_size <? Size) eqn:E2; [apply Z.ltb_lt in E2; lia|].
  reflexivity.
Qed.

Lemma one_field_cursor s a p :
  0 < a -> 1 <= s ->
  fold_left place_field [(s, a, p)] {| dsize := 0; csize := 0; calign := 1 |}
  = {| dsize := s; csize := s; calign := a |}.
Proof.
  intros Ha Hs. cbn [fold_left]. unfold place_field, place_member.
  cbn [dsize csize calign fst snd].
  rewrite align_to_zero by lia. f_equal; lia.
Qed.

(** A POD struct around one member of size [s] and alignment [a]. *)
Lemma one_member_struct name s a :
  0 < a -> 1 <= s -> align_to s a <= max_object_size ->
  class_info name (plain_class true) [] [(s, a, true)]
  = Some {| t_name := name; t_size := align_to s a; t_align := a;
            t_nvsize := align_to s a; t_nvalign := a; t_class := true;
            t_dynamic := false; t_abstract := false; t_empty := false;
            t_pod := true; t_vbases := [] |}.
Proof.
  intros Ha Hs Hfit. rewrite plain_class_info. cbv zeta.
  rewrite one_field_cursor by lia. unfold final_size.
  cbn [dsize csize calign forallb snd andb].
  replace (Z.max s 1) with s by lia.
  destruct (max_object_size <? _) eqn:E; [apply Z.ltb_lt in E; lia|].
  reflexivity.
Qed.

Lemma aligned_buffer_layout a Size :
  pow2 a -> 1 <= Size -> align_to Size a <= max_object_size ->
  layout (aligned_buffer a Size) = Some (storage_info a Size).
Proof.
  intros Ha HS Hfit. pose proof (pow2_range _ Ha) as Hr.
  pose proof (align_to_bounds a ltac:(lia) Size).
  unfold aligned_buffer. cbn [layout mapM bind fst snd].
  rewrite char_buffer_info by lia. cbn [bind].
  unfold field_info, field_align. cbn [scalar_info t_abstract t_align t_size t_pod].
  destruct (a =? 0) eqn:E0; [apply Z.eqb_eq in E0; lia|].
  rewrite (pow2_is_pow2 _ Ha).
  destruct (a <=? max_alignment) eqn:E1; [|apply Z.leb_gt in E1; lia].
  cbn [andb bind]. replace (Z.max a 1) with a by lia.
  apply one_member_struct; lia.
Qed.

Lemma align_to_max a S :
  0 < a -> 1 <= S -> align_to (Z.max a (Z.max S 1)) a = align_to S a.
Proof.
  intros Ha HS. destruct (Z.le_gt_cases a S).
  - f_equal. lia.
  - replace (Z.max a (Z.max S 1)) with a by lia.
    rewrite !align_to_small by lia. reflexivity.
Qed.

Lemma union_buffer_layout b Size :
  1 <= Size -> align_to Size (builtin_size b) <= max_object_size ->
  layout (union_buffer (Builtin b) Size)
  = Some {| t_name := "AlignedCharArray"%string;
            t_size := align_to Size (builtin_size b);
            t_align := builtin_size b;
            t_nvsize := align_to Size (builtin_size b);
            t_nvalign := builtin_size b; t_class := true;
            t_dynamic := false; t_abstract := false; t_empty := false;
            t_pod := true; t_vbases := [] |}.
Proof.
  intros HS Hfit.
  assert (Hb : 1 <= builtin_size b <= 16) by (destruct b; simpl; lia).
  pose proof (align_to_bounds (builtin_size b) ltac:(lia) Size).
  unfold union_buffer, member. cbn [layout mapM bind fst snd].
  rewrite char_buffer_info by lia.
  unfold field_info, field_align, builtin_info.
  cbn [scalar_info t_abstract t_align t_size t_pod bind].
  unfold union_info. cbn [map fold_right fst snd forallb andb].
  replace (Z.max (builtin_size b) (Z.max 1 1)) with (builtin_size b) by lia.
  replace (Z.max Size 1) with (Z.max Size 1) by lia.
  rewrite align_to_max by lia.
  destruct (max_object_size <? _) eqn:E; [apply Z.ltb_lt in E; lia|].
  cbn [bind scalar_info t_abstract t_align t_size t_pod].
  pose proof (align_to_mod (builtin_size b) ltac:(lia) Size) as Hm.
  pose proof (align_to_multiple (builtin_size b) ltac:(lia) _ Hm) as Hi.
  rewrite one_member_struct by (rewrite ?Hi; lia).
  rewrite Hi. reflexivity.
Qed.

Lemma mem_macro_pow2 a : mem a macro_alignments = true -> pow2 a.
Proof.
  unfold mem, macro_alignments. cbn [existsb]. intros H.
  repeat (apply orb_true_iff in H; destruct H as [H|H];
          [apply Z.eqb_eq in H; subst|]); try discriminate;
    [exists 0|exists 1|exists 2|exists 3|exists 4|exists 5|exists 6|exists 7];
    (split; [lia|reflexivity]).
Qed.

(** Every branch defines the eight alignments of the macro list, and lays
    them out alike. *)
Lemma AlignedCharArray_layout d a Size :
  mem a macro_alignments = true ->
  1 <= Size -> align_to Size a <= max_object_size ->
  exists B, AlignedCharArray d a Size = Some B
    /\ layout B = Some (storage_info a Size).
Proof.
  intros Hm HS Hfit. pose proof (mem_macro_pow2 _ Hm) as Hp.
  destruct d; unfold AlignedCharArray.
  - eexists. split; [reflexivity|]. apply aligned_buffer_layout; assumption.
  - rewrite Hm. eexists. split; [reflexivity|].
    apply aligned_buffer_layout; assumption.
  - unfold mem, macro_alignments in Hm. cbn [existsb] in Hm.
    destruct (a =? 1) eqn:E1.
    { apply Z.eqb_eq in E1. subst. eexists. split; [reflexivity|].
      apply (union_buffer_layout Char); assumption. }
    destruct (a =? 2) eqn:E2.
    { apply Z.eqb_eq in E2. subst. eexists. split; [reflexivity|].
      apply (union_buffer_layout Short); assumption. }
    destruct (a =? 4) eqn:E4.
    { apply Z.eqb_eq in E4. subst. eexists. split; [reflexivity|].
      apply (union_buffer_layout Int); assumption. }
    destruct (a =? 8) eqn:E8.
    { apply Z.eqb_eq in E8. subst. eexists. split; [reflexivity|].
      apply (union_buffer_layout Double); assumption. }
    cbn [orb] in Hm. unfold mem, declspec_alignments. cbn [existsb].
    rewrite Hm. eexists. split; [reflexivity|].
    apply aligned_buffer_layout; assumption.
Qed.

(** ** Union sizing *)

Lemma fold_max_is_max l :
  l <> [] -> Forall (fun x => 1 <= x) l -> is_max (fold_right Z.max 1 l) l.
Proof.
  intros Hne Hl. split.
  - induction l as [|x l IH]; [contradiction|].
    inversion Hl; subst. cbn [fold_right].
    destruct l as [|y l'].
    + left. cbn. lia.
    + destruct (Z.max_spec x (fold_right Z.max 1 (y :: l'))) as [[_ E]|[_ E]];
        rewrite E; [right; apply IH; [discriminate|assumption]|left; reflexivity].
  - apply Forall_forall. intros x Hx. apply fold_max_In. assumption.
Qed.

Lemma fold_max_base b a l :
  fold_right Z.max (Z.max b a) l = Z.max a (fold_right Z.max b l).
Proof. induction l as [|x l IH]; cbn [fold_right]; [lia|rewrite IH; lia]. Qed.

Lemma fields_calign fs c :
  calign (fold_left place_field fs c)
  = fold_right Z.max (calign c) (map (fun f => snd (fst f)) fs).
Proof.
  revert c. induction fs as [|f fs IH]; intros c; cbn [fold_left map fold_right].
  - reflexivity.
  - rewrite IH. unfold place_field, place_member. cbn [calign].
    apply fold_max_base.
Qed.

Lemma fields_csize_mono fs c :
  csize c <= csize (fold_left place_field fs c).
Proof.
  revert c. induction fs as [|f fs IH]; intros c; cbn [fold_left]; [lia|].
  etransitivity; [|apply IH]. unfold place_field, place_member. cbn. lia.
Qed.

Lemma fields_csize fs c f :
  cinv 0 c -> Forall wf_field fs -> In f fs ->
  fst (fst f) <= csize (fold_left place_field fs c).
Proof.
  intros Hc Hfs. revert c Hc.
  induction Hfs as [|g fs Hg Hfs IH]; intros c Hc Hin; [contradiction|].
  cbn [fold_left]. destruct Hin as [->|Hin].
  - etransitivity; [|apply fields_csize_mono].
    destruct Hc as (H1 & _). destruct Hg as [_ Ha].
    pose proof (pow2_range _ Ha).
    pose proof (align_to_bounds (snd (fst f)) ltac:(lia) (dsize c)).
    unfold place_field, place_member. cbn. lia.
  - apply IH; [|assumption]. apply cinv_place_field; [lia|assumption|assumption].
Qed.

(** The data members of [AlignerImpl] are its template arguments. *)
Lemma members_info Ts fi :
  mapM (fun m => i <- layout (snd m) ;; field_info (fst m) i) (map member Ts)
  = Some fi ->
  exists infos, mapM layout Ts = Some infos /\ fi = map as_field infos
    /\ Forall (fun i => t_abstract i = false) infos.
Proof.
  revert fi. induction Ts as [|T Ts IH]; cbn [map mapM]; intros fi H.
  - injection H as <-. exists []. repeat split. constructor.
  - apply bind_Some in H. destruct H as (f & Hf & H).
    apply bind_Some in H. destruct H as (fs & Hfs & [= <-]).
    cbn [member fst snd] in Hf.
    apply bind_Some in Hf. destruct Hf as (i & Hi & Hf).
    destruct (IH _ Hfs) as (infos & Hinfos & -> & Hab).
    unfold field_info in Hf. destruct (t_abstract i) eqn:E; [discriminate|].
    cbn in Hf. injection Hf as <-.
    exists (i :: infos). rewrite Hi, Hinfos. cbn [bind map].
    repeat split. constructor; assumption.
Qed.

Lemma mapM_layout_wf Ts infos :
  mapM layout Ts = Some infos -> Forall wf infos.
Proof.
  intros H. apply mapM_Forall2 in H.
  induction H; constructor; eauto using layout_wf.
Qed.

Lemma mapM_layout_In Ts infos T :
  mapM layout Ts = Some infos -> In T Ts ->
  exists i, layout T = Some i /\ In i infos.
Proof.
  intros H. apply mapM_Forall2 in H.
  induction H as [|T' i Ts infos HT _ IH]; [contradiction|].
  intros [->|Hin]; [exists i; split; [assumption|left; reflexivity]|].
  destruct (IH Hin) as (j & Hj & Hinj). exists j. split; [assumption|right; assumption].
Qed.

Lemma mapM_length {A B} (f : A -> option B) l r :
  mapM f l = Some r -> List.length r = List.length l.
Proof.
  intros H. apply mapM_Forall2 in H. symmetry. eapply Forall2_length; eauto.
Qed.

(** The aggregate is as aligned as its most aligned member and as large
    as its largest. *)
Lemma AlignerImpl_layout Ts ia :
  layout (AlignerImpl Ts) = Some ia ->
  exists infos, mapM layout Ts = Some infos
    /\ Forall (fun i => t_abstract i = false) infos
    /\ t_abstract ia = false
    /\ t_align ia = fold_right Z.max 1 (map t_align infos)
    /\ Forall (fun i => t_size i <= t_size ia) infos.
Proof.
  unfold AlignerImpl. cbn [layout mapM bind]. intros H.
  apply bind_Some in H. destruct H as (fi & Hfi & H).
  destruct (members_info _ _ Hfi) as (infos & Hinfos & -> & Hab).
  exists infos. split; [assumption|]. split; [assumption|].
  rewrite plain_class_info in H. cbv zeta in H.
  destruct (max_object_size <? _) eqn:E; [discriminate|].
  injection H as <-. cbn [t_abstract t_align t_size].
  split; [reflexivity|]. split.
  - rewrite fields_calign. cbn [calign]. rewrite map_map. reflexivity.
  - pose proof (mapM_layout_wf _ _ Hinfos) as Hw.
    assert (Hwf : Forall wf_field (map as_field infos)).
    { apply Forall_map. eapply Forall_impl; [|exact Hw].
      intros i Hi. split; [apply (wf_size _ Hi)|apply (wf_align _ Hi)]. }
    assert (Hc0 : cinv 0 {| dsize := 0; csize := 0; calign := 1 |}).
    { unfold cinv. cbn. repeat split; try lia. apply pow2_one. }
    apply Forall_forall. intros i Hi.
    pose proof (fields_csize _ _ (as_field i) Hc0 Hwf (in_map _ _ _ Hi)) as Hle.
    cbn [as_field fst] in Hle.
    set (c := fold_left place_field (map as_field infos) _) in *.
    assert (Hp : pow2 (calign c)).
    { unfold c. rewrite fields_calign. cbn [calign]. rewrite map_map.
      apply fold_max_pow2. apply Forall_map.
      eapply Forall_impl; [|exact Hw]. intros j Hj. apply (wf_align _ Hj). }
    pose proof (pow2_range _ Hp).
    pose proof (align_to_bounds (calign c) ltac:(lia) (Z.max (csize c) 1)).
    unfold final_size. lia.
Qed.

(** When [AlignOf<T>] compiles for a class that is not abstract, the
    helper fits and the constant is the alignment. *)
Lemma AlignOf_concrete_inv T i r :
  layout T = Some i -> t_abstract i = false -> AlignOf T = Some r ->
  Alignment r = t_align i /\ t_size i + t_align i <= max_object_size.
Proof.
  intros HT Hab Hr.
  destruct (Z.le_gt_cases (t_size i + t_align i) max_object_size) as [Hfit|Hbig].
  - destruct (AlignOf_concrete T i HT Hab Hfit) as (r' & Hr' & Ha).
    rewrite Hr in Hr'. injection Hr' as <-. auto.
  - exfalso. pose proof (layout_wf _ _ HT) as Hw.
    pose proof (pow2_range _ (wf_align _ Hw)) as Ha.
    pose proof (wf_size _ Hw) as Hs. pose proof (wf_mod _ Hw) as Hm.
    unfold AlignOf, AlignmentCalcImpl, is_abstract in Hr.
    rewrite HT in Hr. cbn [bind] in Hr. rewrite Hab in Hr.
    apply bind_Some in Hr. destruct Hr as (s & Hs' & _).
    unfold sizeof in Hs'. apply bind_Some in Hs'. destruct Hs' as (j & Hj & _).
    cbn [layout mapM bind member fst snd] in Hj. rewrite HT in Hj.
    cbn [bind] in Hj. rewrite (field_info_plain i Hab) in Hj.
    change (field_info None (builtin_info Char)) with (Some (1, 1, true)) in Hj.
    cbn [bind] in Hj. rewrite plain_class_info in Hj. cbv zeta in Hj.
    rewrite char_then_T_cursor in Hj by lia.
    unfold final_size in Hj. cbn [dsize csize calign] in Hj.
    replace (Z.max (t_align i + t_size i) 1)
      with (1 * t_align i + t_size i) in Hj by lia.
    rewrite align_to_shift in Hj by lia.
    rewrite (align_to_multiple (t_align i)) in Hj by (lia || assumption).
    destruct (max_object_size <? _) eqn:E; [discriminate|].
    apply Z.ltb_ge in E. lia.
Qed.

Lemma mapM_cons {A B} (f : A -> option B) a l :
  mapM f (a :: l) = (b <- f a ;; bs <- mapM f l ;; Some (b :: bs)).
Proof. reflexivity. Qed.

Lemma fold_max_bound b m l :
  b <= m -> Forall (fun x => x <= m) l -> fold_right Z.max b l <= m.
Proof. intros Hb H. induction H; cbn [fold_right]; lia. Qed.

(** [union SizerImpl] is as large as the largest argument, and aligned
    as [char]. *)
Lemma SizerImpl_layout Ts infos :
  mapM layout Ts = Some infos ->
  exists sizer,
    SizerImpl Ts = Some sizer
    /\ layout sizer
       = Some (scalar_info (fold_right Z.max 1 (map t_size infos)) 1 true).
Proof.
  intros H. pose proof (mapM_layout_wf _ _ H) as Hw.
  assert (Harrs :
    mapM (fun T => s <- sizeof T ;; Some (member (Array (Builtin Char) s))) Ts
    = Some (map (fun i => member (Array (Builtin Char) (t_size i))) infos)).
  { clear Hw. revert infos H. induction Ts as [|T Ts IH]; intros infos H.
    - injection H as <-. reflexivity.
    - rewrite mapM_cons in H. apply bind_Some in H. destruct H as (i & Hi & H).
      apply bind_Some in H. destruct H as (rest & His & [= <-]).
      rewrite mapM_cons. unfold sizeof at 1. rewrite Hi. cbn [bind].
      rewrite (IH _ His). reflexivity. }
  unfold SizerImpl. rewrite Harrs. cbn [bind]. eexists. split; [reflexivity|].
  cbn [layout].
  assert (Hfs :
    mapM (fun m => i <- layout (snd m) ;; field_info (fst m) i)
      (map (fun i => member (Array (Builtin Char) (t_size i))) infos)
    = Some (map (fun i => (t_size i, 1, true)) infos)).
  { clear H Harrs. induction Hw as [|i infos Hi _ IH]; [reflexivity|].
    cbn [map]. rewrite mapM_cons. cbn [member fst snd layout bind].
    rewrite char_buffer_info by apply (wf_size _ Hi).
    cbn [bind]. rewrite IH. reflexivity. }
  rewrite Hfs. cbn [bind]. unfold union_info. rewrite !map_map. cbn [fst snd].
  replace (fold_right Z.max 1 (map (fun _ : tinfo => 1) infos)) with 1.
  2:{ clear. induction infos; cbn [map fold_right]; lia. }
  set (m := fold_right Z.max 1 (map (fun x => t_size x) infos)).
  assert (Hm : 1 <= m <= max_object_size).
  { split; [apply fold_max_lower|]. apply fold_max_bound.
    - unfold max_object_size. lia.
    - apply Forall_map. eapply Forall_impl; [|exact Hw].
      intros i Hi. apply (wf_size _ Hi). }
  unfold align_to. rewrite Z.div_1_r. replace ((m + 1 - 1) * 1) with m by lia.
  destruct (max_object_size <? m) eqn:E; [apply Z.ltb_lt in E; lia|].
  do 2 f_equal. clear. induction infos as [|i infos IH]; [reflexivity|].
  cbn [map forallb snd]. exact IH.
Qed.

Lemma AlignedCharArray_Some d a S B :
  AlignedCharArray d a S = Some B ->
  d = CxxAlignas /\ B = aligned_buffer a S \/ mem a macro_alignments = true.
Proof.
  destruct d; unfold AlignedCharArray.
  - intros [= <-]. auto.
  - destruct (mem a macro_alignments); [auto|discriminate].
  - unfold mem, macro_alignments, declspec_alignments. cbn [existsb].
    destruct (a =? 1), (a =? 2), (a =? 4), (a =? 8); cbn [orb]; auto.
    destruct (_ || _); [auto|discriminate].
Qed.

Lemma AlignedCharArray_Some_layout d a S B :
  AlignedCharArray d a S = Some B ->
  pow2 a -> 1 <= S -> align_to S a <= max_object_size ->
  layout B = Some (storage_info a S).
Proof.
  intros HB Ha HS Hfit.
  destruct (AlignedCharArray_Some _ _ _ _ HB) as [[-> ->]|Hm].
  - apply aligned_buffer_layout; assumption.
  - destruct (AlignedCharArray_layout d a S Hm HS Hfit) as (B' & HB' & Hl).
    congruence.
Qed.

(** The struct that derives from the storage and adds nothing. *)
Lemma derived_storage_layout storage a S :
  layout storage = Some (storage_info a S) ->
  pow2 a -> 1 <= S -> align_to S a <= max_object_size ->
  exists i,
    layout (Class "AlignedCharArrayUnion"%string (plain_class true)
              [(false, storage)] []) = Some i
    /\ t_size i = align_to S a /\ t_align i = a.
Proof.
  intros Hl Ha HS Hfit. pose proof (pow2_range _ Ha) as Hr.
  pose proof (align_to_bounds a ltac:(lia) S) as Hb.
  pose proof (align_to_mod a ltac:(lia) S) as Hm.
  cbn [layout mapM bind fst snd]. rewrite Hl. cbn [bind].
  unfold class_info, base_ok, graph_vbases, base_order, start_cursor,
    storage_info, plain_class.
  cbn [forallb map filter fst snd negb andb orb existsb find flat_map app
       t_class t_dynamic t_vbases t_abstract t_empty t_nvsize t_nvalign
       t_size c_virtual c_pure c_overrides c_trivial dedupe
       fold_left].
  unfold place_base. cbn [t_empty t_nvsize t_nvalign].
  unfold final_size, place_member. cbn [dsize csize calign].
  rewrite align_to_zero by lia. cbn [Z.add].
  replace (Z.max (Z.max 0 (align_to S a)) 1) with (align_to S a) by lia.
  replace (Z.max 1 a) with a by lia.
  rewrite (align_to_multiple a) by (lia || assumption).
  destruct (max_object_size <? _) eqn:E; [apply Z.ltb_lt in E; lia|].
  eexists. split; [reflexivity|]. cbn [t_size t_align]. auto.
Qed.

Lemma default_args_Some explicit Ts :
  default_args explicit = Some Ts ->
  explicit <> [] /\ (List.length Ts = 10)%nat
  /\ exists n, Ts = explicit ++ repeat (Builtin Char) n.
Proof.
  unfold default_args. destruct explicit as [|T l]; [discriminate|].
  destruct (List.length (T :: l) <=? 10)%nat eqn:E; [|discriminate].
  intros [= <-]. apply Nat.leb_le in E. split; [discriminate|]. split.
  - change (List.length ((T :: l) ++ repeat (Builtin Char)
                            (10 - List.length (T :: l))) = 10)%nat.
    rewrite length_app, repeat_length. lia.
  - eexists. reflexivity.
Qed.

(** What an instantiation of [AlignedCharArrayUnion] that compiles went
    through. *)
Lemma AlignedCharArrayUnion_inv d explicit U :
  AlignedCharArrayUnion d explicit = Some U ->
  exists Ts infos storage,
    let a := fold_right Z.max 1 (map t_align infos) in
    let s := fold_right Z.max 1 (map t_size infos) in
    default_args explicit = Some Ts
    /\ mapM layout Ts = Some infos
    /\ AlignedCharArray d a s = Some storage
    /\ U = derived storage
    /\ layout storage = Some (storage_info a s)
    /\ pow2 a /\ 1 <= s /\ align_to s a <= max_object_size.
Proof.
  unfold AlignedCharArrayUnion. intros H.
  apply bind_Some in H. destruct H as (Ts & HTs & H).
  apply bind_Some in H. destruct H as (r & Hr & H).
  apply bind_Some in H. destruct H as (sizer & Hsizer & H).
  apply bind_Some in H. destruct H as (s & Hs & H).
  apply bind_Some in H. destruct H as (storage & Hst & [= <-]).
  assert (exists ia, layout (AlignerImpl Ts) = Some ia) as (ia & Hia).
  { unfold AlignOf, AlignmentCalcImpl, is_abstract in Hr.
    destruct (layout (AlignerImpl Ts)) as [ia|]; [eauto|discriminate]. }
  destruct (AlignerImpl_layout _ _ Hia) as (infos & Hinfos & Hab & Habs & Hal & Hsz).
  destruct (AlignOf_concrete_inv _ _ _ Hia Habs Hr) as (Ha & Hfit).
  destruct (SizerImpl_layout _ _ Hinfos) as (sizer' & Hsizer' & Hl).
  rewrite Hsizer in Hsizer'. injection Hsizer' as <-.
  unfold sizeof in Hs. rewrite Hl in Hs. cbn in Hs. injection Hs as <-.
  rewrite Ha, Hal in Hst.
  pose proof (layout_wf _ _ Hia) as Hw.
  pose proof (wf_align _ Hw) as Hp. rewrite Hal in Hp.
  pose proof (pow2_range _ Hp) as Hrg.
  set (a := fold_right Z.max 1 (map t_align infos)) in *.
  set (s := fold_right Z.max 1 (map t_size infos)) in *.
  assert (Hs1 : 1 <= s) by apply fold_max_lower.
  assert (Hsfit : align_to s a <= max_object_size).
  { pose proof (wf_size _ Hw). pose proof (wf_mod _ Hw) as Hm.
    rewrite Hal in Hm. fold a in Hm.
    etransitivity; [apply (align_to_least a ltac:(lia) s (t_size ia))|lia];
      [|assumption].
    apply fold_max_bound; [lia|]. apply Forall_map. exact Hsz. }
  exists Ts, infos, storage. cbv zeta. fold a s.
  repeat split; try assumption.
  eapply AlignedCharArray_Some_layout; eauto.
Qed.

(** C3.  Whenever [AlignedCharArrayUnion<T1, ..., T10>] is instantiated,
    it is a complete type that is at least as aligned and at least as
    large as each of the ten candidates, defaulted ones included. *)
Theorem AlignedCharArrayUnion_holds_any (d : directive) (explicit : list ty)
    (U : ty) :
  AlignedCharArrayUnion d explicit = Some U ->
  exists Ts i,
    default_args explicit = Some Ts
    /\ layout U = Some i
    /\ Forall (fun T => exists iT, layout T = Some iT
                         /\ t_align iT <= t_align i
                         /\ t_size iT <= t_size i) Ts.
Proof.
  intros H. destruct (AlignedCharArrayUnion_inv _ _ _ H)
    as (Ts & infos & storage & HTs & Hinfos & Hst & -> & Hl & Hp & Hs & Hfit).
  destruct (derived_storage_layout _ _ _ Hl Hp Hs Hfit) as (i & Hi & Hsz & Hal).
  exists Ts, i. split; [assumption|]. split; [exact Hi|].
  apply Forall_forall. intros T HT.
  destruct (mapM_layout_In _ _ _ Hinfos HT) as (iT & HiT & Hin).
  exists iT. split; [assumption|]. rewrite Hsz, Hal.
  pose proof (pow2_range _ Hp).
  pose proof (align_to_bounds (fold_right Z.max 1 (map t_align infos))
                ltac:(lia) (fold_right Z.max 1 (map t_size infos))).
  split.
  - apply fold_max_In. apply in_map. assumption.
  - etransitivity; [apply (fold_max_In 1 (map t_size infos))|lia].
    apply in_map. assumption.
Qed.

Lemma AlignedCharArrayUnion_holds_any_witness :
  exists Ts i,
    default_args [Builtin Int; Builtin Double] = Some Ts
    /\ layout (derived (union_buffer (Builtin Double) 8)) = Some i
    /\ Forall (fun T => exists iT, layout T = Some iT
                         /\ t_align iT <= t_align i
                         /\ t_size iT <= t_size i) Ts.
Proof.
  apply (AlignedCharArrayUnion_holds_any MsvcDeclspec
           [Builtin Int; Builtin Double]).
  vm_compute. reflexivity.
Defined.

(** C4.  The alignment fed into the storage,
    [AlignOf<AlignerImpl<T1, ..., T10>>::Alignment], is the alignment of
    the aggregate and the maximum of the ten members' alignments; the
    size fed into it, [sizeof(SizerImpl<T1, ..., T10>)], is the maximum
    of the ten members' sizes rounded up to the alignment of the union,
    which is 1. *)
Theorem MaxAlignment_and_MaxSize (explicit Ts : list ty) (r : AlignOf_members) :
  default_args explicit = Some Ts ->
  AlignOf (AlignerImpl Ts) = Some r ->
  exists infos sizer iu m,
    mapM layout Ts = Some infos
    /\ alignof (AlignerImpl Ts) = Some (Alignment r)
    /\ is_max (Alignment r) (map t_align infos)
    /\ SizerImpl Ts = Some sizer
    /\ layout sizer = Some iu
    /\ is_max m (map t_size infos)
    /\ t_size iu = align_to m (t_align iu)
    /\ t_align iu = 1
    /\ t_size iu = m.
Proof.
  intros HTs Hr.
  assert (exists ia, layout (AlignerImpl Ts) = Some ia) as (ia & Hia).
  { unfold AlignOf, AlignmentCalcImpl, is_abstract in Hr.
    destruct (layout (AlignerImpl Ts)) as [ia|]; [eauto|discriminate]. }
  destruct (AlignerImpl_layout _ _ Hia) as (infos & Hinfos & Hab & Habs & Hal & Hsz).
  destruct (AlignOf_concrete_inv _ _ _ Hia Habs Hr) as (Ha & Hfit).
  destruct (SizerImpl_layout _ _ Hinfos) as (sizer & Hsizer & Hl).
  pose proof (mapM_layout_wf _ _ Hinfos) as Hw.
  destruct (default_args_Some _ _ HTs) as (_ & Hlen & _).
  assert (Hne : infos <> []).
  { apply mapM_length in Hinfos. destruct infos; [cbn in Hinfos; lia|discriminate]. }
  exists infos, sizer, (scalar_info (fold_right Z.max 1 (map t_size infos)) 1 true),
    (fold_right Z.max 1 (map t_size infos)).
  split; [assumption|]. split.
  { unfold alignof. rewrite Hia. cbn [bind]. congruence. }
  split.
  { rewrite Ha, Hal. apply fold_max_is_max.
    - destruct infos; [contradiction|discriminate].
    - apply Forall_map. eapply Forall_impl; [|exact Hw].
      intros i Hi. apply (pow2_range _ (wf_align _ Hi)). }
  split; [assumption|]. split; [assumption|]. split.
  { apply fold_max_is_max.
    - destruct infos; [contradiction|discriminate].
    - apply Forall_map. eapply Forall_impl; [|exact Hw].
      intros i Hi. apply (wf_size _ Hi). }
  cbn [scalar_info t_size t_align]. split; [|auto].
  unfold align_to. rewrite Z.div_1_r. lia.
Qed.

Lemma MaxAlignment_and_MaxSize_witness :
  exists infos sizer iu m,
    mapM layout ([Builtin Int; Builtin Double] ++ repeat (Builtin Char) 8)
      = Some infos
    /\ alignof (AlignerImpl ([Builtin Int; Builtin Double]
                              ++ repeat (Builtin Char) 8)) = Some 8
    /\ is_max 8 (map t_align infos)
    /\ SizerImpl ([Builtin Int; Builtin Double] ++ repeat (Builtin Char) 8)
       = Some sizer
    /\ layout sizer = Some iu
    /\ is_max m (map t_size infos)
    /\ t_size iu = align_to m (t_align iu)
    /\ t_align iu = 1
    /\ t_size iu = m.
Proof.
  refine (MaxAlignment_and_MaxSize [Builtin Int; Builtin Double] _
            {| Alignment := 8;
               Alignment_GreaterEqual_2Bytes := 1;
               Alignment_GreaterEqual_4Bytes := 1;
               Alignment_GreaterEqual_8Bytes := 1;
               Alignment_GreaterEqual_16Bytes := 0;
               Alignment_LessEqual_2Bytes := 0;
               Alignment_LessEqual_4Bytes := 0;
               Alignment_LessEqual_8Bytes := 1;
               Alignment_LessEqual_16Bytes := 1 |} _ _);
    vm_compute; reflexivity.
Defined.

(** C7.  [AlignedCharArrayUnion<T1, T2>], with eight slots defaulted
    to [char], is the type that the maxima over [T1] and [T2] alone give;
    a [char] slot has alignment 1 and size 1. *)
Theorem defaulted_slots_are_no_op (d : directive) (T1 T2 U : ty) :
  AlignedCharArrayUnion d [T1; T2] = Some U ->
  direct_two_type d T1 T2 = Some U
  /\ alignof (Builtin Char) = Some 1
  /\ sizeof (Builtin Char) = Some 1.
Proof.
  intros H. split; [|split; reflexivity].
  destruct (AlignedCharArrayUnion_inv _ _ _ H)
    as (Ts & infos & storage & HTs & Hinfos & Hst & -> & _).
  injection HTs as <-.
  cbn [List.length Nat.sub repeat app] in Hinfos.
  rewrite mapM_cons in Hinfos.
  apply bind_Some in Hinfos. destruct Hinfos as (i1 & H1 & Hinfos).
  apply bind_Some in Hinfos. destruct Hinfos as (rest & Hrest & [= <-]).
  rewrite mapM_cons in Hrest.
  apply bind_Some in Hrest. destruct Hrest as (i2 & H2 & Hrest).
  apply bind_Some in Hrest. destruct Hrest as (chars & Hchars & [= <-]).
  cbn in Hchars. injection Hchars as <-.
  pose proof (pow2_range _ (wf_align _ (layout_wf _ _ H1))).
  pose proof (pow2_range _ (wf_align _ (layout_wf _ _ H2))).
  pose proof (wf_size _ (layout_wf _ _ H1)).
  pose proof (wf_size _ (layout_wf _ _ H2)).
  cbn [map fold_right builtin_info scalar_info t_align t_size builtin_size]
    in Hst.
  unfold direct_two_type, alignof, sizeof. rewrite H1, H2. cbn [bind].
  replace (Z.max (t_align i1) (t_align i2))
    with (Z.max (t_align i1) (Z.max (t_align i2)
            (Z.max 1 (Z.max 1 (Z.max 1 (Z.max 1 (Z.max 1 (Z.max 1
            (Z.max 1 (Z.max 1 1)))))))))) by lia.
  replace (Z.max (t_size i1) (t_size i2))
    with (Z.max (t_size i1) (Z.max (t_size i2)
            (Z.max 1 (Z.max 1 (Z.max 1 (Z.max 1 (Z.max 1 (Z.max 1
            (Z.max 1 (Z.max 1 1)))))))))) by lia.
  rewrite Hst. reflexivity.
Qed.

Lemma defaulted_slots_are_no_op_witness :
  direct_two_type GnuAttribute (Array (Builtin Char) 13) (Builtin LongDouble)
  = Some (derived (aligned_buffer 16 16))
  /\ alignof (Builtin Char) = Some 1
  /\ sizeof (Builtin Char) = Some 1.
Proof.
  apply (defaulted_slots_are_no_op GnuAttribute
           (Array (Builtin Char) 13) (Builtin LongDouble)).
  vm_compute. reflexivity.
Defined.

(** ** Where objects start *)

Lemma divide_chain x a b :
  pow2 a -> pow2 b -> a <= b -> x mod b = 0 -> x mod a = 0.
Proof.
  intros Ha Hb Hle Hx.
  pose proof (pow2_range _ Ha). pose proof (pow2_range _ Hb).
  pose proof (pow2_divide a b Ha Hb Hle) as Hba.
  apply Z.mod_divide in Hx; [|lia]. apply Z.mod_divide in Hba; [|lia].
  apply Z.mod_divide; [lia|]. eapply Z.divide_trans; eauto.
Qed.

Lemma add_mod_zero x y a : 0 < a -> x mod a = 0 -> y mod a = 0 -> (x + y) mod a = 0.
Proof.
  intros Ha Hx Hy. rewrite Z.add_mod by lia. rewrite Hx, Hy. reflexivity.
Qed.

Lemma calign_place_base c b :
  calign (place_base c b) = Z.max (calign c) (t_nvalign b).
Proof. unfold place_base. destruct (t_empty b); reflexivity. Qed.

Lemma bases_calign_mono l c : calign c <= calign (fold_left place_base l c).
Proof.
  revert c. induction l as [|b l IH]; intros c; cbn [fold_left]; [lia|].
  specialize (IH (place_base c b)). rewrite calign_place_base in IH. lia.
Qed.

Lemma calign_place_field c f :
  calign (place_field c f) = Z.max (calign c) (snd (fst f)).
Proof. reflexivity. Qed.

Lemma calign_place_vbase c v :
  calign (place_vbase c v) = Z.max (calign c) (vb_nvalign v).
Proof. unfold place_vbase. destruct (vb_empty v); reflexivity. Qed.

Lemma fields_calign_mono l c : calign c <= calign (fold_left place_field l c).
Proof.
  revert c. induction l as [|f l IH]; intros c; cbn [fold_left]; [lia|].
  specialize (IH (place_field c f)). rewrite calign_place_field in IH. lia.
Qed.

Lemma vbases_calign_mono l c : calign c <= calign (fold_left place_vbase l c).
Proof.
  revert c. induction l as [|v l IH]; intros c; cbn [fold_left]; [lia|].
  specialize (IH (place_vbase c v)). rewrite calign_place_vbase in IH. lia.
Qed.

Lemma drop_primary_typed_incl l : incl (drop_primary_typed l) l.
Proof.
  induction l as [|b l IH]; simpl; [apply incl_refl|].
  destruct (t_dynamic (snd b)).
  - apply incl_tl, incl_refl.
  - apply incl_cons; [left; reflexivity|apply incl_tl, IH].
Qed.

Lemma typed_base_order_incl nv : incl (typed_base_order nv) nv.
Proof.
  unfold typed_base_order.
  destruct (find _ nv) as [p|] eqn:E; [|apply incl_refl].
  apply incl_cons; [apply (find_some _ _ E)|apply drop_primary_typed_incl].
Qed.

Lemma typed_base_order_map nv :
  map snd (typed_base_order nv) = base_order (map snd nv).
Proof.
  unfold typed_base_order, base_order.
  assert (Hf : find t_dynamic (map snd nv)
               = option_map snd (find (fun b => t_dynamic (snd b)) nv)).
  { induction nv as [|b nv IH]; cbn [map find]; [reflexivity|].
    destruct (t_dynamic (snd b)); [reflexivity|exact IH]. }
  assert (Hd : map snd (drop_primary_typed nv) = drop_primary (map snd nv)).
  { clear Hf.
    induction nv as [|b nv IH]; cbn [map drop_primary drop_primary_typed];
      [reflexivity|].
    destruct (t_dynamic (snd b)); [reflexivity|]. cbn [map]. f_equal. exact IH. }
  rewrite Hf. destruct (find _ nv); simpl; [rewrite Hd|]; reflexivity.
Qed.

(** Each base is at a multiple of its alignment, which the class takes
    over. *)
Lemma base_offsets_aligned l : forall c T off,
  Forall (fun b => wf (snd b)) l ->
  In (T, off) (base_offsets c l) ->
  exists i, In (T, i) l /\ off mod t_nvalign i = 0
    /\ t_nvalign i <= calign (fold_left place_base (map snd l) c).
Proof.
  induction l as [|b l IH]; intros c T off Hl Hin; [contradiction|].
  inversion Hl as [|? ? Hb Hl']; subst.
  cbn [base_offsets map fold_left] in *. destruct Hin as [E|Hin].
  - injection E as <- <-. exists (snd b). split; [left; destruct b; reflexivity|].
    pose proof (pow2_range _ (wf_nvalign _ Hb)).
    split.
    + unfold base_offset. destruct (t_empty (snd b));
        [apply Z.mod_0_l; lia|apply align_to_mod; lia].
    + pose proof (bases_calign_mono (map snd l) (place_base c (snd b))) as Hm.
      rewrite calign_place_base in Hm. lia.
  - destruct (IH _ _ _ Hl' Hin) as (i & Hi & Hm & Hle).
    exists i. split; [right; assumption|]. split; assumption.
Qed.

Lemma field_offsets_aligned l : forall c T off,
  Forall (fun f => wf_field (snd f)) l ->
  In (T, off) (field_offsets c l) ->
  exists f, In (T, f) l /\ off mod snd (fst f) = 0
    /\ snd (fst f) <= calign (fold_left place_field (map snd l) c).
Proof.
  induction l as [|b l IH]; intros c T off Hl Hin; [contradiction|].
  inversion Hl as [|? ? Hb Hl']; subst.
  cbn [field_offsets map fold_left] in *. destruct Hin as [E|Hin].
  - injection E as <- <-. exists (snd b). split; [left; destruct b; reflexivity|].
    destruct Hb as [_ Hb]. pose proof (pow2_range _ Hb).
    split.
    + unfold field_offset. apply align_to_mod. lia.
    + pose proof (fields_calign_mono (map snd l) (place_field c (snd b))) as Hm.
      rewrite calign_place_field in Hm. lia.
  - destruct (IH _ _ _ Hl' Hin) as (i & Hi & Hm & Hle).
    exists i. split; [right; assumption|]. split; assumption.
Qed.

Lemma typed_bases bs : forall bi nv,
  mapM (fun b => i <- layout (snd b) ;; Some (fst b, i)) bs = Some bi ->
  mapM (fun b : bool * ty => i <- layout (snd b) ;; Some (snd b, i))
    (filter (fun b => negb (fst b)) bs) = Some nv ->
  map snd nv = map snd (filter (fun b => negb (fst b)) bi)
  /\ Forall (fun b => layout (fst b) = Some (snd b)) nv.
Proof.
  induction bs as [|b bs IH]; intros bi nv Hbi Hnv.
  - injection Hbi as <-. injection Hnv as <-. split; constructor.
  - cbn [mapM] in Hbi. apply bind_Some in Hbi. destruct Hbi as (x & Hx & Hbi).
    apply bind_Some in Hx. destruct Hx as (i & Hi & [= <-]).
    apply bind_Some in Hbi. destruct Hbi as (bi' & Hbi' & [= <-]).
    cbn [filter] in *. cbn [fst]. destruct (fst b); cbn [negb] in *.
    + apply IH; assumption.
    + cbn [mapM] in Hnv. rewrite Hi in Hnv. cbn [bind] in Hnv.
      apply bind_Some in Hnv. destruct Hnv as (nv' & Hnv' & [= <-]).
      destruct (IH _ _ Hbi' Hnv') as [E F]. cbn [map snd]. split.
      * f_equal. assumption.
      * constructor; assumption.
Qed.

Lemma typed_fields fs : forall fi tf,
  mapM (fun m => i <- layout (snd m) ;; field_info (fst m) i) fs = Some fi ->
  mapM (fun m : option Z * ty => i <- layout (snd m) ;;
                 f <- field_info (fst m) i ;; Some (snd m, f)) fs = Some tf ->
  map snd tf = fi
  /\ Forall (fun f => exists spec i, layout (fst f) = Some i
                        /\ field_info spec i = Some (snd f)) tf.
Proof.
  induction fs as [|m fs IH]; intros fi tf Hfi Htf.
  - injection Hfi as <-. injection Htf as <-. split; constructor.
  - cbn [mapM] in Hfi, Htf.
    apply bind_Some in Hfi. destruct Hfi as (f & Hf & Hfi).
    apply bind_Some in Hf. destruct Hf as (i & Hi & Hf).
    apply bind_Some in Hfi. destruct Hfi as (fi' & Hfi' & [= <-]).
    rewrite Hi in Htf. cbn [bind] in Htf. rewrite Hf in Htf. cbn [bind] in Htf.
    apply bind_Some in Htf. destruct Htf as (tf' & Htf' & [= <-]).
    destruct (IH _ _ Hfi' Htf') as [E F]. cbn [map snd]. split.
    + f_equal. assumption.
    + constructor; [|assumption]. exists (fst m), i. split; assumption.
Qed.

(** The alignment of the part of a class that is laid out when it is a
    base. *)
Lemma class_info_nvalign name h bs fs i :
  class_info name h bs fs = Some i ->
  let nv := map snd (filter (fun b => negb (fst b)) bs) in
  t_nvalign i
  = calign (fold_left place_field fs
              (fold_left place_base (base_order nv)
                 (start_cursor (dynamic_of h bs) nv)))
  /\ t_nvalign i <= t_align i.
Proof.
  unfold class_info. destruct (negb (forallb base_ok bs)); [discriminate|].
  cbv zeta. destruct (max_object_size <? _); [discriminate|].
  intros [= <-]. cbn [t_nvalign t_align]. split; [reflexivity|].
  apply vbases_calign_mono.
Qed.

Lemma layout_nvalign_le T i : layout T = Some i -> t_nvalign i <= t_align i.
Proof.
  destruct T as [b|e n|ms|name h bs fs]; cbn [layout]; intros H.
  - injection H as <-. simpl. lia.
  - apply bind_Some in H. destruct H as (j & _ & H). unfold array_info in H.
    destruct (_ || _); [discriminate|]. injection H as <-. simpl. lia.
  - apply bind_Some in H. destruct H as (fi & _ & H). unfold union_info in H.
    destruct (_ <? _); [discriminate|]. injection H as <-. simpl. lia.
  - destruct (negb _); [discriminate|].
    apply bind_Some in H. destruct H as (bi & _ & H).
    apply bind_Some in H. destruct H as (fi & _ & H).
    apply (class_info_nvalign _ _ _ _ _ H).
Qed.

(** A subobject is laid out, at a multiple of its alignment, and the
    enclosing object is aligned at least as strictly. *)
Lemma subobjects_aligned D subs T off iD :
  layout D = Some iD -> subobjects D = Some subs -> In (T, off) subs ->
  exists i, layout T = Some i /\ off mod t_nvalign i = 0
    /\ t_nvalign i <= t_nvalign iD.
Proof.
  intros HD Hs Hin. pose proof (layout_wf _ _ HD) as HwD.
  destruct D as [b|e n|ms|name h bs fs]; try discriminate.
  - (* a union *)
    unfold subobjects in Hs. rewrite HD in Hs. cbn [bind] in Hs.
    injection Hs as <-. apply in_map_iff in Hin.
    destruct Hin as (m & [= <- <-] & Hm).
    cbn [layout] in HD. apply bind_Some in HD. destruct HD as (fi & Hfi & HD).
    assert (Hf : exists i f, layout (snd m) = Some i
                   /\ field_info (fst m) i = Some f /\ In f fi).
    { apply mapM_Forall2 in Hfi. clear -Hfi Hm.
      induction Hfi as [|a f l r Haf _ IH]; [contradiction|].
      destruct Hm as [->|Hm].
      - apply bind_Some in Haf. destruct Haf as (i & Hi & Hf).
        exists i, f. repeat split; [assumption|assumption|left; reflexivity].
      - destruct (IH Hm) as (i & f' & Hi & Hf & Hin).
        exists i, f'. repeat split; [assumption|assumption|right; assumption]. }
    destruct Hf as (i & f & Hi & Hf & Hin).
    pose proof (layout_wf _ _ Hi) as Hw.
    pose proof (pow2_range _ (wf_nvalign _ Hw)).
    exists i. split; [assumption|]. split; [apply Z.mod_0_l; lia|].
    unfold union_info in HD. destruct (_ <? _); [discriminate|].
    injection HD as <-. cbn [scalar_info t_nvalign].
    apply field_info_Some in Hf. destruct Hf as (_ & _ & _ & Hf).
    apply field_align_pow2 in Hf; [|apply (wf_align _ Hw)].
    pose proof (layout_nvalign_le _ _ Hi).
    assert (snd (fst f) <= fold_right Z.max 1 (map (fun f => snd (fst f)) fi)).
    { apply fold_max_In. apply in_map_iff. exists f. split; [reflexivity|assumption]. }
    lia.
  - (* a class *)
    unfold subobjects in Hs. rewrite HD in Hs. cbn [bind] in Hs.
    apply bind_Some in Hs. destruct Hs as (bi & Hbi & Hs).
    apply bind_Some in Hs. destruct Hs as (nv & Hnv & Hs).
    apply bind_Some in Hs. destruct Hs as (tf & Htf & Hs).
    cbv zeta in Hs. injection Hs as <-.
    cbn [layout] in HD. destruct (negb _); [discriminate|].
    rewrite Hbi in HD. cbn [bind] in HD.
    apply bind_Some in HD. destruct HD as (fi & Hfi & HD).
    destruct (typed_bases _ _ _ Hbi Hnv) as [Env Hnvl].
    destruct (typed_fields _ _ _ Hfi Htf) as [Efi Htfl].
    destruct (class_info_nvalign _ _ _ _ _ HD) as [Hnva _]. cbv zeta in Hnva.
    rewrite <- Env, <- typed_base_order_map, <- Efi in Hnva.
    assert (Hwo : Forall (fun b => wf (snd b)) (typed_base_order nv)).
    { apply Forall_forall. intros b Hb. apply typed_base_order_incl in Hb.
      rewrite Forall_forall in Hnvl. eapply layout_wf. apply Hnvl, Hb. }
    assert (Hwf : Forall (fun f => wf_field (snd f)) tf).
    { eapply Forall_impl; [|exact Htfl]. intros f (spec & i & Hi & Hf).
      eapply wf_field_info; [|exact Hf]. eapply layout_wf; eauto. }
    apply in_app_or in Hin. destruct Hin as [Hin|Hin].
    + destruct (base_offsets_aligned _ _ _ _ Hwo Hin) as (i & Hi & Hm & Hle).
      exists i. split.
      { apply typed_base_order_incl in Hi. rewrite Forall_forall in Hnvl.
        apply (Hnvl _ Hi). }
      split; [assumption|]. rewrite Hnva.
      etransitivity; [exact Hle|]. apply fields_calign_mono.
    + destruct (field_offsets_aligned _ _ _ _ Hwf Hin) as (f & Hf & Hm & Hle).
      rewrite Forall_forall in Htfl. destruct (Htfl _ Hf) as (spec & i & Hi & Hfi').
      cbn [fst snd] in Hi, Hfi'.
      pose proof (layout_wf _ _ Hi) as Hw.
      apply field_info_Some in Hfi'. destruct Hfi' as (_ & _ & _ & Hfa).
      apply field_align_pow2 in Hfa; [|apply (wf_align _ Hw)].
      destruct Hfa as [Hp Hge]. pose proof (layout_nvalign_le _ _ Hi).
      exists i. split; [assumption|]. split.
      * apply (divide_chain _ _ (snd (fst f))); [apply (wf_nvalign _ Hw)|assumption|lia|assumption].
      * rewrite Hnva. lia.
Qed.

(** Every object in a complete object is laid out, and its offset is a
    multiple of its alignment, which the complete object takes over. *)
Lemma contains_aligned C T off iC :
  layout C = Some iC -> contains C T off ->
  exists i, layout T = Some i /\ off mod t_nvalign i = 0
    /\ t_nvalign i <= t_align iC.
Proof.
  intros HC H. induction H as [|T n i k off H IH Hi Hk|D subs T off off' H IH Hs Hin].
  - exists iC. pose proof (pow2_range _ (wf_nvalign _ (layout_wf _ _ HC))).
    split; [assumption|]. split; [apply Z.mod_0_l; lia|].
    apply (layout_nvalign_le _ _ HC).
  - destruct IH as (ia & Ha & Hm & Hle).
    cbn [layout] in Ha. rewrite Hi in Ha. cbn [bind] in Ha.
    unfold array_info in Ha. destruct (_ || _); [discriminate|].
    injection Ha as <-. cbn [scalar_info t_nvalign] in *.
    pose proof (layout_wf _ _ Hi) as Hw.
    pose proof (pow2_range _ (wf_align _ Hw)).
    pose proof (layout_nvalign_le _ _ Hi).
    exists i. split; [assumption|]. split; [|lia].
    apply (divide_chain _ _ (t_align i));
      [apply (wf_nvalign _ Hw)|apply (wf_align _ Hw)|assumption|].
    unfold element_address. apply add_mod_zero; [lia|assumption|].
    rewrite Z.mul_mod by lia. rewrite (wf_mod _ Hw).
    rewrite Z.mul_0_r. apply Z.mod_0_l. lia.
  - destruct IH as (iD & HD & Hm & Hle).
    destruct (subobjects_aligned _ _ _ _ _ HD Hs Hin) as (i & Hi & Hm' & Hle').
    pose proof (layout_wf _ _ Hi) as Hw. pose proof (layout_wf _ _ HD) as HwD.
    pose proof (pow2_range _ (wf_nvalign _ Hw)).
    exists i. split; [assumption|]. split; [|lia].
    apply add_mod_zero; [lia| |assumption].
    apply (divide_chain _ _ (t_nvalign iD));
      [apply (wf_nvalign _ Hw)|apply (wf_nvalign _ HwD)|assumption|assumption].
Qed.

Lemma starts_at_aligned T addr :
  starts_at T addr ->
  exists i, layout T = Some i /\ addr mod t_nvalign i = 0.
Proof.
  intros (C & iC & base & off & HC & Hb & Hc & ->).
  destruct (contains_aligned _ _ _ _ HC Hc) as (i & Hi & Hm & Hle).
  pose proof (layout_wf _ _ Hi) as Hw. pose proof (layout_wf _ _ HC) as HwC.
  pose proof (pow2_range _ (wf_nvalign _ Hw)).
  exists i. split; [assumption|].
  apply add_mod_zero; [lia| |assumption].
  apply (divide_chain _ _ (t_align iC));
    [apply (wf_nvalign _ Hw)|apply (wf_align _ HwC)|assumption|assumption].
Qed.

Lemma aligned_buffer_subobjects a Size :
  pow2 a -> 1 <= Size -> align_to Size a <= max_object_size ->
  subobjects (aligned_buffer a Size) = Some [(Array (Builtin Char) Size, 0)].
Proof.
  intros Ha HS Hfit. pose proof (pow2_range _ Ha) as Hr.
  pose proof (align_to_bounds a ltac:(lia) Size).
  unfold subobjects, aligned_buffer.
  fold (aligned_buffer a Size). rewrite aligned_buffer_layout by assumption.
  cbn [bind mapM filter fst snd layout].
  rewrite char_buffer_info by lia. cbn [bind].
  unfold field_info, field_align. cbn [scalar_info t_abstract t_align t_size t_pod].
  destruct (a =? 0) eqn:E0; [apply Z.eqb_eq in E0; lia|].
  rewrite (pow2_is_pow2 _ Ha).
  destruct (a <=? max_alignment) eqn:E1; [|apply Z.leb_gt in E1; lia].
  cbn [andb bind]. cbv zeta.
  cbn [typed_base_order find map fold_left base_offsets field_offsets app fst snd].
  unfold field_offset, start_cursor, dynamic_of.
  cbn [plain_class c_virtual c_pure existsb orb andb dsize fst snd].
  rewrite align_to_zero by lia. reflexivity.
Qed.

Lemma union_buffer_subobjects b Size :
  1 <= Size -> align_to Size (builtin_size b) <= max_object_size ->
  let U := Union [member (Builtin b); member (Array (Builtin Char) Size)] in
  subobjects (union_buffer (Builtin b) Size) = Some [(U, 0)]
  /\ subobjects U = Some [(Builtin b, 0); (Array (Builtin Char) Size, 0)].
Proof.
  intros HS Hfit U.
  assert (Hb : 1 <= builtin_size b <= 16) by (destruct b; simpl; lia).
  pose proof (align_to_bounds (builtin_size b) ltac:(lia) Size).
  pose proof (union_buffer_layout b Size HS Hfit) as HB.
  assert (HU : exists j, layout U = Some j /\ t_abstract j = false
                         /\ t_align j = builtin_size b).
  { unfold U, member. cbn [layout mapM bind fst snd].
    rewrite char_buffer_info by lia.
    unfold field_info, field_align, builtin_info.
    cbn [scalar_info t_abstract t_align t_size t_pod bind].
    unfold union_info. cbn [map fold_right fst snd forallb andb].
    replace (Z.max (builtin_size b) (Z.max 1 1)) with (builtin_size b) by lia.
    rewrite align_to_max by lia.
    destruct (max_object_size <? _) eqn:E; [apply Z.ltb_lt in E; lia|].
    eexists. split; [reflexivity|]. split; reflexivity. }
  destruct HU as (j & HU & Hja & Hjal).
  split.
  - unfold subobjects, union_buffer. fold (union_buffer (Builtin b) Size).
    rewrite HB. cbn [bind mapM filter fst snd member]. fold U. rewrite HU.
    cbn [bind]. unfold field_info, field_align. rewrite Hja. cbn [bind].
    cbv zeta.
    cbn [typed_base_order find map fold_left base_offsets field_offsets app fst snd].
    unfold field_offset, start_cursor, dynamic_of.
    cbn [plain_class c_virtual c_pure existsb orb andb dsize fst snd].
    rewrite Hjal. rewrite align_to_zero by lia. reflexivity.
  - unfold subobjects. fold U. rewrite HU. reflexivity.
Qed.

(** Every branch has the buffer of [Size] bytes at offset 0. *)
Lemma AlignedCharArray_buffer d a Size :
  mem a macro_alignments = true ->
  1 <= Size -> align_to Size a <= max_object_size ->
  exists B, AlignedCharArray d a Size = Some B
    /\ layout B = Some (storage_info a Size)
    /\ contains B (Array (Builtin Char) Size) 0.
Proof.
  intros Hm HS Hfit. pose proof (mem_macro_pow2 _ Hm) as Hp.
  assert (Ha : contains (aligned_buffer a Size) (Array (Builtin Char) Size) 0).
  { apply (contains_subobject _ (aligned_buffer a Size)
             [(Array (Builtin Char) Size, 0)] _ 0 0);
      [apply contains_self|apply aligned_buffer_subobjects; assumption
      |left; reflexivity]. }
  assert (Hu : forall b, align_to Size (builtin_size b) <= max_object_size ->
            contains (union_buffer (Builtin b) Size)
              (Array (Builtin Char) Size) 0).
  { intros b Hb. destruct (union_buffer_subobjects b Size HS Hb) as [H1 H2].
    eapply (contains_subobject _ _ _ _ 0 0); [|exact H2|right; left; reflexivity].
    eapply (contains_subobject _ _ _ _ 0 0); [apply contains_self|exact H1|].
    left; reflexivity. }
  destruct d; unfold AlignedCharArray.
  - eexists. split; [reflexivity|]. split; [|exact Ha].
    apply aligned_buffer_layout; assumption.
  - rewrite Hm. eexists. split; [reflexivity|]. split; [|exact Ha].
    apply aligned_buffer_layout; assumption.
  - unfold mem, macro_alignments in Hm. cbn [existsb] in Hm.
    destruct (a =? 1) eqn:E1.
    { apply Z.eqb_eq in E1. subst. eexists. split; [reflexivity|].
      split; [apply (union_buffer_layout Char); assumption|].
      apply (Hu Char); assumption. }
    destruct (a =? 2) eqn:E2.
    { apply Z.eqb_eq in E2. subst. eexists. split; [reflexivity|].
      split; [apply (union_buffer_layout Short); assumption|].
      apply (Hu Short); assumption. }
    destruct (a =? 4) eqn:E4.
    { apply Z.eqb_eq in E4. subst. eexists. split; [reflexivity|].
      split; [apply (union_buffer_layout Int); assumption|].
      apply (Hu Int); assumption. }
    destruct (a =? 8) eqn:E8.
    { apply Z.eqb_eq in E8. subst. eexists. split; [reflexivity|].
      split; [apply (union_buffer_layout Double); assumption|].
      apply (Hu Double); assumption. }
    cbn [orb] in Hm. unfold mem, declspec_alignments. cbn [existsb].
    rewrite Hm. eexists. split; [reflexivity|]. split; [|exact Ha].
    apply aligned_buffer_layout; assumption.
Qed.

(** In [struct Slot { char tag; AlignedCharArray<8, 3> store; };] the
    storage lies at offset 8 and its buffer with it; in element 2 of an
    array of [Slot], which is 16 bytes large, they lie at offset 40. *)
Lemma Slot_store :
  subobjects Slot = Some [(Builtin Char, 0); (aligned_buffer 8 3, 8)]
  /\ contains Slot (Array (Builtin Char) 3) 8
  /\ contains (Array Slot 4) (Array (Builtin Char) 3) 40
  /\ forall base, base mod 8 = 0 ->
       starts_at (aligned_buffer 8 3) (base + 40).
Proof.
  assert (Hs : subobjects Slot
               = Some [(Builtin Char, 0); (aligned_buffer 8 3, 8)])
    by reflexivity.
  assert (Hb : subobjects (aligned_buffer 8 3)
               = Some [(Array (Builtin Char) 3, 0)]) by reflexivity.
  assert (He : contains (Array Slot 4) Slot 32).
  { apply (contains_element _ Slot 4
             {| t_name := "Slot"; t_size := 16; t_align := 8;
                t_nvsize := 16; t_nvalign := 8; t_class := true;
                t_dynamic := false; t_abstract := false; t_empty := false;
                t_pod := true; t_vbases := [] |} 2 0);
      [apply contains_self|reflexivity|lia]. }
  assert (Hst : contains (Array Slot 4) (aligned_buffer 8 3) 40).
  { apply (contains_subobject _ Slot _ _ 32 8 He Hs). right. left. reflexivity. }
  split; [exact Hs|]. split; [|split].
  - refine (contains_subobject _ (aligned_buffer 8 3) _ _ 8 0 _ Hb _);
      [|left; reflexivity].
    refine (contains_subobject _ Slot _ _ 0 8 (contains_self _) Hs _).
    right. left. reflexivity.
  - apply (contains_subobject _ (aligned_buffer 8 3) _ _ 40 0 Hst Hb).
    left. reflexivity.
  - intros base Hbase.
    exists (Array Slot 4),
      (scalar_info 64 8 true), base, 40.
    split; [reflexivity|]. split; [exact Hbase|]. split; [exact Hst|reflexivity].
Qed.

(** C5, as stated, fails: [AlignedCharArray<8, 3>] is 8 bytes large,
    not 3. *)
Lemma AlignedCharArray_8_3_is_padded :
  exists B, AlignedCharArray GnuAttribute 8 3 = Some B
    /\ sizeof B = Some 8 /\ sizeof B <> Some 3.
Proof.
  eexists. split; [reflexivity|]. split; [reflexivity|]. discriminate.
Qed.

(** C5, amended.  For an alignment [A] of the macro list and a size
    [S >= 1], in each of the three branches, [AlignedCharArray<A, S>]
    has the buffer [char buffer[S]], of [S] bytes, at offset 0; it is
    aligned on [A] and its size is [S] rounded up to a multiple of [A]:
    at least [S], less than [S + A], and exactly [S] if and only if [A]
    divides [S].  Every instance starts on a multiple of [A], whether it
    is a complete object in storage aligned for its type or lies, at any
    depth, as an array element, a data member, a union member or a
    non-virtual base-class subobject, in a complete object in storage
    aligned for the type of that object; and from a multiple of [A],
    every multiple of the size leads to a multiple of [A]. *)
Theorem AlignedCharArray_size_and_alignment (d : directive) (A S : Z) :
  mem A macro_alignments = true ->
  1 <= S ->
  align_to S A <= max_object_size ->
  exists B i,
    AlignedCharArray d A S = Some B
    /\ layout B = Some i
    /\ contains B (Array (Builtin Char) S) 0
    /\ sizeof (Array (Builtin Char) S) = Some S
    /\ t_align i = A
    /\ t_size i = align_to S A
    /\ S <= t_size i < S + A
    /\ (t_size i = S <-> S mod A = 0)
    /\ (forall addr, starts_at B addr -> addr mod A = 0)
    /\ forall base k, base mod A = 0 ->
         element_address base k (t_size i) mod A = 0.
Proof.
  intros Hm HS Hfit.
  destruct (AlignedCharArray_buffer d A S Hm HS Hfit) as (B & HB & Hl & Hc).
  pose proof (pow2_range _ (mem_macro_pow2 _ Hm)) as Hr.
  pose proof (align_to_bounds A ltac:(lia) S) as Hb.
  exists B, (storage_info A S). cbn [storage_info t_align t_size].
  split; [assumption|]. split; [assumption|]. split; [assumption|].
  split.
  { unfold sizeof. cbn [layout bind]. rewrite char_buffer_info by lia.
    reflexivity. }
  split; [reflexivity|]. split; [reflexivity|]. split; [assumption|].
  split; [|split].
  - split.
    + intros E. rewrite <- E. apply align_to_mod. lia.
    + intros E. apply align_to_multiple; [lia|assumption].
  - intros addr Hs. destruct (starts_at_aligned _ _ Hs) as (i & Hi & Hmod).
    rewrite Hl in Hi. injection Hi as <-. exact Hmod.
  - intros base k Hbase. unfold element_address.
    rewrite Z.add_mod by lia. rewrite Hbase.
    rewrite Z.mul_mod by lia. rewrite align_to_mod by lia.
    rewrite Z.mul_0_r. reflexivity.
Qed.

Lemma AlignedCharArray_size_and_alignment_witness :
  exists B i,
    AlignedCharArray MsvcDeclspec 4 6 = Some B
    /\ layout B = Some i
    /\ contains B (Array (Builtin Char) 6) 0
    /\ sizeof (Array (Builtin Char) 6) = Some 6
    /\ t_align i = 4
    /\ t_size i = align_to 6 4
    /\ 6 <= t_size i < 6 + 4
    /\ (t_size i = 6 <-> 6 mod 4 = 0)
    /\ (forall addr, starts_at B addr -> addr mod 4 = 0)
    /\ forall base k, base mod 4 = 0 ->
         element_address base k (t_size i) mod 4 = 0.
Proof.
  apply (AlignedCharArray_size_and_alignment MsvcDeclspec 4 6);
    [reflexivity|lia|vm_compute; discriminate].
Defined.

Lemma aligned_buffer_alignas_zero Size :
  1 <= Size -> Size <= max_object_size ->
  layout (aligned_buffer 0 Size) = Some (storage_info 1 Size).
Proof.
  intros HS Hfit. unfold aligned_buffer. cbn [layout mapM bind fst snd].
  rewrite char_buffer_info by lia. cbn [bind].
  unfold field_info, field_align. cbn [scalar_info t_abstract t_align t_size t_pod].
  cbn [Z.eqb bind].
  assert (E : align_to Size 1 = Size) by (unfold align_to; rewrite Z.div_1_r; lia).
  rewrite one_member_struct by (rewrite ?E; lia). reflexivity.
Qed.

(** C6, as stated, fails: where the compiler has [alignas],
    [AlignedCharArray<256, 16>] is defined and complete, although 256 is
    not in the macro list. *)
Lemma AlignedCharArray_256_with_alignas :
  exists B, AlignedCharArray CxxAlignas 256 16 = Some B
    /\ mem 256 macro_alignments = false
    /\ sizeof B = Some 256 /\ alignof B = Some 256.
Proof. eexists. repeat split; reflexivity. Qed.

(** C6, amended.  In the [__GNUC__] and [_MSC_VER] branches
    [AlignedCharArray<A, S>] is defined exactly for [A] in
    1, 2, 4, 8, 16, 32, 64, 128.  In the [alignas] branch the primary
    template is defined for every [A]; its instantiation is rejected
    unless [A] is 0 or a power of two up to [max_alignment], and it
    compiles for each such [A] when [S >= 1] and the padded size fits
    the largest object.  In every branch the eight alignments of the
    macro list compile, to the same layout. *)
Theorem AlignedCharArray_defined (A S : Z) :
  (AlignedCharArray GnuAttribute A S <> None
   <-> mem A macro_alignments = true)
  /\ (AlignedCharArray MsvcDeclspec A S <> None
      <-> mem A macro_alignments = true)
  /\ AlignedCharArray CxxAlignas A S = Some (aligned_buffer A S)
  /\ (layout (aligned_buffer A S) <> None -> A = 0 \/ pow2 A)
  /\ (1 <= S -> align_to S (Z.max A 1) <= max_object_size ->
      A = 0 \/ pow2 A -> layout (aligned_buffer A S) <> None)
  /\ (forall d, mem A macro_alignments = true ->
      1 <= S -> align_to S A <= max_object_size ->
      exists B, AlignedCharArray d A S = Some B
        /\ layout B = Some (storage_info A S)).
Proof.
  split; [|split; [|split; [|split; [|split]]]].
  - unfold AlignedCharArray. destruct (mem A macro_alignments);
      split; intros; congruence.
  - unfold AlignedCharArray, mem, macro_alignments, declspec_alignments.
    cbn [existsb].
    destruct (A =? 1), (A =? 2), (A =? 4), (A =? 8); cbn [orb];
      try (split; intros; congruence).
    destruct (_ || _); split; intros; congruence.
  - reflexivity.
  - unfold aligned_buffer. cbn [layout mapM bind fst snd].
    destruct (array_info (builtin_info Char) S) as [i|];
      [|intros H; exfalso; apply H; reflexivity].
    cbn [bind]. unfold field_info, field_align.
    destruct (t_abstract i); [intros H; exfalso; apply H; reflexivity|].
    destruct (A =? 0) eqn:E0; [apply Z.eqb_eq in E0; auto|].
    destruct (is_pow2 A && (A <=? max_alignment)) eqn:E;
      [|intros H; exfalso; apply H; reflexivity].
    intros _. right. apply andb_true_iff in E. destruct E as [E1 E2].
    apply Z.leb_le in E2. apply is_pow2_sound; assumption.
  - intros HS Hfit [->|Hp].
    + change (Z.max 0 1) with 1 in Hfit.
      assert (E : align_to S 1 = S) by (unfold align_to; rewrite Z.div_1_r; lia).
      rewrite aligned_buffer_alignas_zero by lia. discriminate.
    + pose proof (pow2_range _ Hp). replace (Z.max A 1) with A in Hfit by lia.
      rewrite aligned_buffer_layout by assumption. discriminate.
  - intros d. apply AlignedCharArray_layout.
Qed.

(** * Further properties of the header *)

(** X1.  For an abstract class [T] without virtual base classes, other
    than [AlignmentCalcImplBase] itself, whose helper fits the largest
    object size, the abstract path measures the
    alignment of [T]: [AlignOf<T>::Alignment] is [alignof(T)], at least
    the alignment of a pointer, and it is what the non-abstract path
    measures on a concrete class that derives from [T] and adds no data
    member. *)
Theorem abstract_path_without_virtual_bases (T : ty) (i : tinfo) :
  layout T = Some i ->
  t_abstract i = true ->
  t_vbases i = [] ->
  t_size i + t_align i <= max_object_size ->
  T <> AlignmentCalcImplBase ->
  exists r r',
    AlignOf T = Some r
    /\ Alignment r = t_align i
    /\ pointer_size <= Alignment r
    /\ alignof (ConcreteSubtype T) = Some (Alignment r)
    /\ AlignOf (ConcreteSubtype T) = Some r'
    /\ Alignment r' = Alignment r.
Proof.
  intros HT Hab Hvb Hfit Hnb.
  destruct (AlignOf_abstract T i HT Hab Hvb Hfit Hnb) as (r & Hr & Ha).
  destruct (ConcreteSubtype_layout T i HT Hab Hvb) as (j & Hj & Hs & Hal & Hc).
  destruct (AlignOf_concrete _ j Hj Hc) as (r' & Hr' & Ha'); [lia|].
  pose proof (layout_wf _ _ HT) as Hw.
  pose proof (wf_abstract _ Hw Hab) as Hdyn.
  destruct (wf_dynamic _ Hw Hdyn) as (_ & Hp & _).
  destruct (wf_novb _ Hw Hdyn Hvb) as (Hn & _).
  exists r, r'. repeat split; try assumption; try lia.
  unfold alignof. rewrite Hj. cbn [bind]. congruence.
Qed.

Lemma abstract_path_without_virtual_bases_witness :
  exists r r',
    AlignOf AbstractAligned32 = Some r
    /\ Alignment r = 32
    /\ pointer_size <= Alignment r
    /\ alignof (ConcreteSubtype AbstractAligned32) = Some (Alignment r)
    /\ AlignOf (ConcreteSubtype AbstractAligned32) = Some r'
    /\ Alignment r' = Alignment r.
Proof.
  refine (abstract_path_without_virtual_bases AbstractAligned32
            {| t_name := "Shape"; t_size := 64; t_align := 32;
               t_nvsize := 33; t_nvalign := 32; t_class := true;
               t_dynamic := true; t_abstract := true; t_empty := false;
               t_pod := false; t_vbases := [] |} _ _ _ _ _);
    [vm_compute; reflexivity|reflexivity|reflexivity|vm_compute; discriminate
    |discriminate].
Defined.

Lemma AlignOf_pow2_witness :
  exists r impl s,
    AlignOf WithVirtualFunction = Some r /\ pow2 (Alignment r)
    /\ 1 <= Alignment r
    /\ AlignmentCalcImpl WithVirtualFunction = Some impl
    /\ sizeof impl = Some s
    /\ 16 < s.
Proof.
  refine (AlignOf_pow2 WithVirtualFunction
            {| t_name := "Node"; t_size := 16; t_align := 8;
               t_nvsize := 12; t_nvalign := 8; t_class := true;
               t_dynamic := true; t_abstract := false; t_empty := false;
               t_pod := false; t_vbases := [] |} _ _ _ _);
    [vm_compute; reflexivity|reflexivity|vm_compute; discriminate
    |discriminate].
Defined.

(** X3.  Measuring the storage gives back its alignment: for [A] in
    the macro list and [S >= 1], in each of the three branches,
    [AlignOf<AlignedCharArray<A, S>>::Alignment] is [A]. *)
Theorem AlignOf_of_AlignedCharArray (d : directive) (A S : Z) :
  mem A macro_alignments = true ->
  1 <= S ->
  align_to S A + A <= max_object_size ->
  exists B r,
    AlignedCharArray d A S = Some B
    /\ AlignOf B = Some r
    /\ Alignment r = A.
Proof.
  intros Hm HS Hfit.
  pose proof (pow2_range _ (mem_macro_pow2 _ Hm)) as Hr.
  destruct (AlignedCharArray_layout d A S Hm HS ltac:(lia)) as (B & HB & Hl).
  destruct (AlignOf_concrete B _ Hl eq_refl) as (r & Hr' & Ha);
    [cbn [storage_info t_size t_align]; lia|].
  exists B, r. auto.
Qed.

Lemma AlignOf_of_AlignedCharArray_witness :
  exists B r,
    AlignedCharArray MsvcDeclspec 8 20 = Some B
    /\ AlignOf B = Some r
    /\ Alignment r = 8.
Proof.
  apply (AlignOf_of_AlignedCharArray MsvcDeclspec 8 20);
    [reflexivity|lia|vm_compute; discriminate].
Defined.

(** X4.  The three preprocessor branches lay
    [AlignedCharArray<A, S>] out alike for [A] in the macro list and
    [S >= 1]: the [alignas] member, the [aligned] attribute, the
    [__declspec(align)] member and the unions over [char], [short], [int]
    and [double] all have alignment [A] and size [S] rounded up to a
    multiple of [A]. *)
Theorem AlignedCharArray_branches_agree (d d' : directive) (A S : Z) :
  mem A macro_alignments = true ->
  1 <= S ->
  align_to S A <= max_object_size ->
  exists B B',
    AlignedCharArray d A S = Some B
    /\ AlignedCharArray d' A S = Some B'
    /\ layout B = layout B'
    /\ sizeof B = Some (align_to S A)
    /\ sizeof B' = Some (align_to S A)
    /\ alignof B = Some A
    /\ alignof B' = Some A.
Proof.
  intros Hm HS Hfit.
  destruct (AlignedCharArray_layout d A S Hm HS Hfit) as (B & HB & Hl).
  destruct (AlignedCharArray_layout d' A S Hm HS Hfit) as (B' & HB' & Hl').
  exists B, B'. unfold sizeof, alignof. rewrite Hl, Hl'.
  repeat split; assumption.
Qed.

Lemma AlignedCharArray_branches_agree_witness :
  exists B B',
    AlignedCharArray MsvcDeclspec 2 5 = Some B
    /\ AlignedCharArray GnuAttribute 2 5 = Some B'
    /\ layout B = layout B'
    /\ sizeof B = Some (align_to 5 2)
    /\ sizeof B' = Some (align_to 5 2)
    /\ alignof B = Some 2
    /\ alignof B' = Some 2.
Proof.
  apply (AlignedCharArray_branches_agree MsvcDeclspec GnuAttribute 2 5);
    [reflexivity|lia|vm_compute; discriminate].
Defined.

(** *** The union storage, exactly *)

Lemma AlignedCharArrayUnion_candidates d explicit U :
  AlignedCharArrayUnion d explicit = Some U ->
  exists Ts infos,
    default_args explicit = Some Ts
    /\ mapM layout Ts = Some infos
    /\ Forall (fun i => t_abstract i = false) infos.
Proof.
  unfold AlignedCharArrayUnion. intros H.
  apply bind_Some in H. destruct H as (Ts & HTs & H).
  apply bind_Some in H. destruct H as (r & Hr & _).
  assert (exists ia, layout (AlignerImpl Ts) = Some ia) as (ia & Hia).
  { unfold AlignOf, AlignmentCalcImpl, is_abstract in Hr.
    destruct (layout (AlignerImpl Ts)) as [ia|]; [eauto|discriminate]. }
  destruct (AlignerImpl_layout _ _ Hia) as (infos & Hinfos & Hab & _).
  eauto.
Qed.

Lemma union_storage_exact d explicit U :
  AlignedCharArrayUnion d explicit = Some U ->
  exists Ts infos i,
    default_args explicit = Some Ts
    /\ mapM layout Ts = Some infos
    /\ infos <> []
    /\ layout U = Some i
    /\ t_align i = fold_right Z.max 1 (map t_align infos)
    /\ t_size i = align_to (fold_right Z.max 1 (map t_size infos)) (t_align i)
    /\ (d = CxxAlignas \/ mem (t_align i) macro_alignments = true).
Proof.
  intros H. destruct (AlignedCharArrayUnion_inv _ _ _ H)
    as (Ts & infos & storage & HTs & Hinfos & Hst & -> & Hl & Hp & Hs & Hfit).
  destruct (derived_storage_layout _ _ _ Hl Hp Hs Hfit) as (i & Hi & Hsz & Hal).
  exists Ts, infos, i. rewrite Hal. repeat split; try assumption.
  - destruct (default_args_Some _ _ HTs) as (_ & Hlen & _).
    apply mapM_length in Hinfos. intros ->. cbn in Hinfos. lia.
  - destruct (AlignedCharArray_Some _ _ _ _ Hst) as [[-> _]|Hm]; auto.
Qed.

(** X5.  An instantiated [AlignedCharArrayUnion] has exactly the
    largest alignment among its ten candidates, and its size is the
    largest candidate size rounded up to that alignment: less than one
    alignment unit is added. *)
Theorem AlignedCharArrayUnion_exact (d : directive) (explicit : list ty)
    (U : ty) :
  AlignedCharArrayUnion d explicit = Some U ->
  exists Ts infos i m,
    default_args explicit = Some Ts
    /\ mapM layout Ts = Some infos
    /\ layout U = Some i
    /\ is_max (t_align i) (map t_align infos)
    /\ is_max m (map t_size infos)
    /\ t_size i = align_to m (t_align i)
    /\ m <= t_size i < m + t_align i.
Proof.
  intros H. destruct (union_storage_exact _ _ _ H)
    as (Ts & infos & i & HTs & Hinfos & Hne & Hi & Hal & Hsz & _).
  pose proof (mapM_layout_wf _ _ Hinfos) as Hw.
  pose proof (pow2_range _ (wf_align _ (layout_wf _ _ Hi))) as Hr.
  exists Ts, infos, i, (fold_right Z.max 1 (map t_size infos)).
  split; [assumption|]. split; [assumption|]. split; [assumption|].
  split.
  { rewrite Hal. apply fold_max_is_max.
    - destruct infos; [contradiction|discriminate].
    - apply Forall_map. eapply Forall_impl; [|exact Hw].
      intros j Hj. apply (pow2_range _ (wf_align _ Hj)). }
  split.
  { apply fold_max_is_max.
    - destruct infos; [contradiction|discriminate].
    - apply Forall_map. eapply Forall_impl; [|exact Hw].
      intros j Hj. apply (wf_size _ Hj). }
  split; [assumption|]. rewrite Hsz. apply align_to_bounds. lia.
Qed.

Lemma AlignedCharArrayUnion_exact_witness :
  exists Ts infos i m,
    default_args [Array (Builtin Char) 13; Builtin LongDouble] = Some Ts
    /\ mapM layout Ts = Some infos
    /\ layout (derived (aligned_buffer 16 16)) = Some i
    /\ is_max (t_align i) (map t_align infos)
    /\ is_max m (map t_size infos)
    /\ t_size i = align_to m (t_align i)
    /\ m <= t_size i < m + t_align i.
Proof.
  apply (AlignedCharArrayUnion_exact GnuAttribute
           [Array (Builtin Char) 13; Builtin LongDouble]).
  vm_compute. reflexivity.
Defined.

(** X6.  [AlignedCharArrayUnion<T>], with one candidate, has the size
    and the alignment of [T] itself. *)
Theorem AlignedCharArrayUnion_single (d : directive) (T U : ty) :
  AlignedCharArrayUnion d [T] = Some U ->
  exists s a,
    sizeof T = Some s /\ alignof T = Some a
    /\ sizeof U = Some s /\ alignof U = Some a.
Proof.
  intros H. destruct (union_storage_exact _ _ _ H)
    as (Ts & infos & i & HTs & Hinfos & _ & Hi & Hal & Hsz & _).
  injection HTs as <-.
  cbn [List.length Nat.sub repeat app] in Hinfos.
  rewrite mapM_cons in Hinfos.
  apply bind_Some in Hinfos. destruct Hinfos as (iT & HT & Hinfos).
  apply bind_Some in Hinfos. destruct Hinfos as (chars & Hchars & [= <-]).
  cbn in Hchars. injection Hchars as <-.
  pose proof (layout_wf _ _ HT) as Hw.
  pose proof (pow2_range _ (wf_align _ Hw)) as Hr.
  pose proof (wf_size _ Hw) as Hs. pose proof (wf_mod _ Hw) as Hm.
  cbn [map fold_right builtin_info scalar_info t_align t_size builtin_size]
    in Hal, Hsz.
  replace (Z.max (t_align iT) _) with (t_align iT) in Hal by lia.
  replace (Z.max (t_size iT) _) with (t_size iT) in Hsz by lia.
  rewrite Hal in Hsz.
  rewrite (align_to_multiple (t_align iT)) in Hsz by (lia || assumption).
  exists (t_size iT), (t_align iT). unfold sizeof, alignof.
  rewrite HT, Hi. cbn [bind]. repeat split; congruence.
Qed.

Lemma AlignedCharArrayUnion_single_witness :
  exists s a,
    sizeof (Array (Builtin Int) 3) = Some s
    /\ alignof (Array (Builtin Int) 3) = Some a
    /\ sizeof (derived (union_buffer (Builtin Int) 12)) = Some s
    /\ alignof (derived (union_buffer (Builtin Int) 12)) = Some a.
Proof.
  apply (AlignedCharArrayUnion_single MsvcDeclspec (Array (Builtin Int) 3)).
  vm_compute. reflexivity.
Defined.

(** X7.  A candidate of abstract class type makes
    [AlignedCharArrayUnion] fail to compile: [AlignerImpl] would declare a
    data member of that type. *)
Theorem AlignedCharArrayUnion_rejects_abstract (d : directive)
    (explicit : list ty) (T : ty) :
  In T explicit ->
  is_abstract T = Some true ->
  AlignedCharArrayUnion d explicit = None.
Proof.
  intros Hin Hab.
  destruct (AlignedCharArrayUnion d explicit) as [U|] eqn:H; [|reflexivity].
  exfalso.
  destruct (AlignedCharArrayUnion_candidates _ _ _ H)
    as (Ts & infos & HTs & Hinfos & Hna).
  destruct (default_args_Some _ _ HTs) as (_ & _ & n & ->).
  destruct (mapM_layout_In _ _ T Hinfos) as (i & Hi & Hini).
  { apply in_or_app. left. assumption. }
  rewrite Forall_forall in Hna. specialize (Hna i Hini).
  unfold is_abstract in Hab. rewrite Hi in Hab. cbn in Hab. congruence.
Qed.

Lemma AlignedCharArrayUnion_rejects_abstract_witness :
  AlignedCharArrayUnion CxxAlignas [Builtin Int; AlignmentCalcImplBase] = None.
Proof.
  apply (AlignedCharArrayUnion_rejects_abstract CxxAlignas
           [Builtin Int; AlignmentCalcImplBase] AlignmentCalcImplBase);
    [right; left; reflexivity|reflexivity].
Defined.

(** X10.  Outside the [alignas] branch, a candidate aligned more
    strictly than 128 bytes makes [AlignedCharArrayUnion] fail to
    compile: no specialization of [AlignedCharArray] has its alignment. *)
Theorem AlignedCharArrayUnion_rejects_overaligned (d : directive)
    (explicit : list ty) (T : ty) (a : Z) :
  d <> CxxAlignas ->
  In T explicit ->
  alignof T = Some a ->
  128 < a ->
  AlignedCharArrayUnion d explicit = None.
Proof.
  intros Hd Hin Ha Hbig.
  destruct (AlignedCharArrayUnion d explicit) as [U|] eqn:H; [|reflexivity].
  exfalso.
  destruct (union_storage_exact _ _ _ H)
    as (Ts & infos & i & HTs & Hinfos & _ & Hi & Hal & _ & [Hc|Hm]);
    [contradiction|].
  destruct (default_args_Some _ _ HTs) as (_ & _ & n & ->).
  destruct (mapM_layout_In _ _ T Hinfos) as (iT & HiT & Hini).
  { apply in_or_app. left. assumption. }
  unfold alignof in Ha. rewrite HiT in Ha. cbn in Ha. injection Ha as <-.
  assert (t_align iT <= t_align i).
  { rewrite Hal. apply fold_max_In. apply in_map. assumption. }
  assert (t_align i <= 128).
  { unfold mem, macro_alignments in Hm. cbn [existsb] in Hm.
    repeat (apply orb_true_iff in Hm; destruct Hm as [Hm|Hm];
            [apply Z.eqb_eq in Hm; lia|]). discriminate. }
  lia.
Qed.

Lemma AlignedCharArrayUnion_rejects_overaligned_witness :
  AlignedCharArrayUnion GnuAttribute [Builtin Int; Aligned256] = None.
Proof.
  apply (AlignedCharArrayUnion_rejects_overaligned GnuAttribute
           [Builtin Int; Aligned256] Aligned256 256);
    [discriminate|right; left; reflexivity|reflexivity|lia].
Defined.

Lemma pow2_le_128 a : pow2 a -> a <= 128 -> mem a macro_alignments = true.
Proof.
  intros (k & Hk & ->) Hle.
  assert (k <= 7).
  { destruct (Z.le_gt_cases k 7); [assumption|].
    pose proof (Z.pow_le_mono_r 2 8 k). lia. }
  assert (k = 0 \/ k = 1 \/ k = 2 \/ k = 3 \/ k = 4 \/ k = 5 \/ k = 6 \/ k = 7)
    as Hc by lia.
  repeat (destruct Hc as [->|Hc]; [reflexivity|]). subst. reflexivity.
Qed.

(** X9.  [AlignedCharArrayUnion] compiles whenever one to ten
    candidates are given, the aggregate [AlignerImpl] over them is a type
    the compiler accepts and leaves room for the one byte of the
    alignment helper, and either the branch is [alignas] or the largest
    alignment is at most 128.  The storage is then as aligned as the
    aggregate and no larger. *)
Theorem AlignedCharArrayUnion_compiles (d : directive) (explicit Ts : list ty)
    (ia : tinfo) :
  default_args explicit = Some Ts ->
  layout (AlignerImpl Ts) = Some ia ->
  t_size ia + t_align ia <= max_object_size ->
  d = CxxAlignas \/ t_align ia <= 128 ->
  exists U i,
    AlignedCharArrayUnion d explicit = Some U
    /\ layout U = Some i
    /\ t_align i = t_align ia
    /\ t_size i <= t_size ia.
Proof.
  intros HTs Hia Hfit Hd.
  destruct (AlignerImpl_layout _ _ Hia) as (infos & Hinfos & Hab & Habs & Hal & Hsz).
  destruct (AlignOf_concrete _ _ Hia Habs Hfit) as (r & Hr & Ha).
  destruct (SizerImpl_layout _ _ Hinfos) as (sizer & Hsizer & Hl).
  pose proof (layout_wf _ _ Hia) as Hw.
  pose proof (wf_align _ Hw) as Hp.
  pose proof (pow2_range _ Hp) as Hrg.
  pose proof (wf_size _ Hw) as Hs. pose proof (wf_mod _ Hw) as Hm.
  set (s := fold_right Z.max 1 (map t_size infos)) in *.
  assert (Hs1 : 1 <= s) by apply fold_max_lower.
  assert (Hle : align_to s (t_align ia) <= t_size ia).
  { apply align_to_least; [lia| |assumption].
    apply fold_max_bound; [lia|]. apply Forall_map. exact Hsz. }
  assert (exists B, AlignedCharArray d (t_align ia) s = Some B) as (B & HB).
  { destruct Hd as [->|Hd]; [eexists; reflexivity|].
    destruct (AlignedCharArray_layout d (t_align ia) s) as (B & HB & _);
      [apply pow2_le_128; assumption|lia|lia|eauto]. }
  pose proof (AlignedCharArray_Some_layout _ _ _ _ HB Hp Hs1 ltac:(lia)) as HlB.
  destruct (derived_storage_layout _ _ _ HlB Hp Hs1 ltac:(lia))
    as (i & Hi & Hsi & Hai).
  exists (derived B), i. split.
  - unfold AlignedCharArrayUnion. rewrite HTs. cbn [bind]. rewrite Hr.
    cbn [bind]. rewrite Hsizer. cbn [bind]. unfold sizeof. rewrite Hl.
    cbn [bind scalar_info t_size]. rewrite Ha. fold s. rewrite HB. reflexivity.
  - split; [assumption|]. split; [assumption|]. lia.
Qed.

Lemma AlignedCharArrayUnion_compiles_witness :
  exists U i,
    AlignedCharArrayUnion MsvcDeclspec [Builtin Short; Builtin Pointer] = Some U
    /\ layout U = Some i
    /\ t_align i = 8
    /\ t_size i <= 24.
Proof.
  refine (AlignedCharArrayUnion_compiles MsvcDeclspec
            [Builtin Short; Builtin Pointer] _
            {| t_name := "AlignerImpl"; t_size := 24; t_align := 8;
               t_nvsize := 24; t_nvalign := 8; t_class := true;
               t_dynamic := false; t_abstract := false; t_empty := false;
               t_pod := false; t_vbases := [] |} _ _ _ _);
    [reflexivity|vm_compute; reflexivity|vm_compute; discriminate
    |right; cbn; lia].
Defined.

(** *** The order of the candidates *)

Lemma mapM_Permutation {A B} (f : A -> option B) l l' :
  Permutation l l' ->
  forall r, mapM f l = Some r ->
  exists r', mapM f l' = Some r' /\ Permutation r r'.
Proof.
  induction 1 as [|x l l' Hp IH|x y l|l l' l'' _ IH1 _ IH2]; intros r Hr.
  - injection Hr as <-. exists []. split; [reflexivity|constructor].
  - rewrite mapM_cons in Hr.
    apply bind_Some in Hr. destruct Hr as (b & Hb & Hr).
    apply bind_Some in Hr. destruct Hr as (bs & Hbs & [= <-]).
    destruct (IH _ Hbs) as (bs' & Hbs' & Hpb).
    exists (b :: bs'). rewrite mapM_cons, Hb. cbn [bind]. rewrite Hbs'.
    split; [reflexivity|constructor; assumption].
  - rewrite !mapM_cons in Hr.
    apply bind_Some in Hr. destruct Hr as (b & Hb & Hr).
    apply bind_Some in Hr. destruct Hr as (bs & Hbs & [= <-]).
    apply bind_Some in Hbs. destruct Hbs as (c & Hc & Hbs).
    apply bind_Some in Hbs. destruct Hbs as (cs & Hcs & [= <-]).
    exists (c :: b :: cs). rewrite !mapM_cons, Hc. cbn [bind]. rewrite Hb.
    cbn [bind]. rewrite Hcs. split; [reflexivity|constructor].
  - destruct (IH1 _ Hr) as (r' & Hr' & Hp1).
    destruct (IH2 _ Hr') as (r'' & Hr'' & Hp2).
    exists r''. split; [assumption|]. eapply Permutation_trans; eauto.
Qed.

Lemma fold_max_Permutation b l l' :
  Permutation l l' -> fold_right Z.max b l = fold_right Z.max b l'.
Proof.
  induction 1; cbn [fold_right]; lia.
Qed.

(** X8.  The order of the candidates does not matter: two
    instantiations of [AlignedCharArrayUnion] over the same candidates in
    different orders derive from the same storage type. *)
Theorem AlignedCharArrayUnion_order (d : directive) (explicit explicit' : list ty)
    (U U' : ty) :
  Permutation explicit explicit' ->
  AlignedCharArrayUnion d explicit = Some U ->
  AlignedCharArrayUnion d explicit' = Some U' ->
  U = U'.
Proof.
  intros Hp H H'.
  destruct (AlignedCharArrayUnion_inv _ _ _ H)
    as (Ts & infos & storage & HTs & Hinfos & Hst & -> & _).
  destruct (AlignedCharArrayUnion_inv _ _ _ H')
    as (Ts' & infos' & storage' & HTs' & Hinfos' & Hst' & -> & _).
  assert (HpT : Permutation Ts Ts').
  { destruct (default_args_Some _ _ HTs) as (_ & Hlen & n & ->).
    destruct (default_args_Some _ _ HTs') as (_ & Hlen' & n' & ->).
    rewrite length_app, repeat_length in Hlen, Hlen'.
    pose proof (Permutation_length Hp).
    assert (n = n') as -> by lia.
    apply Permutation_app_tail. assumption. }
  destruct (mapM_Permutation _ _ _ HpT _ Hinfos) as (infos'' & Hi'' & Hpi).
  rewrite Hinfos' in Hi''. injection Hi'' as <-.
  rewrite (fold_max_Permutation 1 _ _ (Permutation_map t_align Hpi)) in Hst.
  rewrite (fold_max_Permutation 1 _ _ (Permutation_map t_size Hpi)) in Hst.
  congruence.
Qed.

Lemma AlignedCharArrayUnion_order_witness :
  derived (aligned_buffer 8 8) = derived (aligned_buffer 8 8).
Proof.
  apply (AlignedCharArrayUnion_order CxxAlignas
           [Builtin Int; Builtin Double] [Builtin Double; Builtin Int]);
    [apply perm_swap|vm_compute; reflexivity|vm_compute; reflexivity].
Defined.

(** *** Arrays and the largest objects *)

(** X11.  An array is measured as its element:
    [AlignOf<T[n]>::Alignment] is [AlignOf<T>::Alignment]. *)
Theorem AlignOf_array (T : ty) (n : Z) (i : tinfo) :
  layout T = Some i ->
  t_abstract i = false ->
  1 <= n ->
  n * t_size i + t_align i <= max_object_size ->
  exists r r',
    AlignOf (Array T n) = Some r
    /\ AlignOf T = Some r'
    /\ Alignment r = Alignment r'.
Proof.
  intros HT Hab Hn Hfit. pose proof (layout_wf _ _ HT) as Hw.
  pose proof (wf_size _ Hw) as Hs.
  pose proof (pow2_range _ (wf_align _ Hw)) as Hr.
  assert (Hle : t_size i <= n * t_size i) by nia.
  assert (HA : layout (Array T n)
               = Some (scalar_info (n * t_size i) (t_align i) (t_pod i))).
  { cbn [layout]. rewrite HT. cbn [bind]. unfold array_info. rewrite Hab.
    destruct (n <? 1) eqn:E1; [apply Z.ltb_lt in E1; lia|].
    destruct (max_object_size <? n * t_size i) eqn:E2;
      [apply Z.ltb_lt in E2; lia|reflexivity]. }
  destruct (AlignOf_concrete _ _ HA eq_refl) as (r & Hr1 & Ha1);
    [cbn [scalar_info t_size t_align]; lia|].
  destruct (AlignOf_concrete _ _ HT Hab) as (r' & Hr2 & Ha2); [lia|].
  exists r, r'. cbn [scalar_info t_align] in Ha1.
  repeat split; try assumption. congruence.
Qed.

Lemma AlignOf_array_witness :
  exists r r',
    AlignOf (Array (Builtin Double) 5) = Some r
    /\ AlignOf (Builtin Double) = Some r'
    /\ Alignment r = Alignment r'.
Proof.
  apply (AlignOf_array (Builtin Double) 5 (builtin_info Double));
    [reflexivity|reflexivity|lia|vm_compute; discriminate].
Defined.

(** X12.  [AlignOf<T>] fails to compile for a complete, non-abstract
    [T] so large that one more alignment unit exceeds the largest object
    size: the helper [struct { char x; T t; }] is then no valid type. *)
Theorem AlignOf_needs_room (T : ty) (i : tinfo) :
  layout T = Some i ->
  t_abstract i = false ->
  max_object_size < t_size i + t_align i ->
  AlignOf T = None /\ alignOf T = None.
Proof.
  intros HT Hab Hbig.
  assert (H : AlignOf T = None).
  { destruct (AlignOf T) as [r|] eqn:Hr; [|reflexivity].
    destruct (AlignOf_concrete_inv _ _ _ HT Hab Hr). lia. }
  split; [assumption|]. unfold alignOf. rewrite H. reflexivity.
Qed.

Lemma AlignOf_needs_room_witness :
  AlignOf (Array (Builtin Char) max_object_size) = None
  /\ alignOf (Array (Builtin Char) max_object_size) = None.
Proof.
  apply (AlignOf_needs_room (Array (Builtin Char) max_object_size)
           (scalar_info max_object_size 1 true));
    [vm_compute; reflexivity|reflexivity|cbn; lia].
Defined.

(** *** One more candidate *)

Lemma mapM_In_inv {A B} (f : A -> option B) l r b :
  mapM f l = Some r -> In b r -> exists a, In a l /\ f a = Some b.
Proof.
  intros H. apply mapM_Forall2 in H.
  induction H as [|a b' l r Hab _ IH]; [contradiction|].
  intros [->|Hin]; [exists a; split; [left; reflexivity|assumption]|].
  destruct (IH Hin) as (a' & Ha' & Hf). exists a'. split; [right|]; assumption.
Qed.

Lemma mod_divide_trans x a b :
  0 < a -> 0 < b -> x mod b = 0 -> b mod a = 0 -> x mod a = 0.
Proof.
  intros Ha Hb Hx Hba.
  apply Z.mod_divide in Hx; [|lia]. apply Z.mod_divide in Hba; [|lia].
  apply Z.mod_divide; [lia|]. eapply Z.divide_trans; eauto.
Qed.

(** X13.  Adding a candidate never shrinks the storage: appending a
    type to the candidate list gives a storage at least as aligned and at
    least as large. *)
Theorem AlignedCharArrayUnion_grows (d : directive) (explicit : list ty)
    (T U U' : ty) :
  AlignedCharArrayUnion d explicit = Some U ->
  AlignedCharArrayUnion d (explicit ++ [T]) = Some U' ->
  exists i i',
    layout U = Some i /\ layout U' = Some i'
    /\ t_align i <= t_align i'
    /\ t_size i <= t_size i'.
Proof.
  intros H H'.
  destruct (union_storage_exact _ _ _ H)
    as (Ts & infos & i & HTs & Hinfos & _ & Hi & Hal & Hsz & _).
  destruct (union_storage_exact _ _ _ H')
    as (Ts' & infos' & i' & HTs' & Hinfos' & _ & Hi' & Hal' & Hsz' & _).
  exists i, i'. split; [assumption|]. split; [assumption|].
  destruct (default_args_Some _ _ HTs) as (_ & _ & n & ->).
  destruct (default_args_Some _ _ HTs') as (_ & _ & n' & ->).
  pose proof (mapM_layout_wf _ _ Hinfos') as Hw'.
  set (a' := fold_right Z.max 1 (map t_align infos')) in *.
  set (s' := fold_right Z.max 1 (map t_size infos')) in *.
  assert (Hall : Forall (fun j => t_align j <= a' /\ t_size j <= s') infos).
  { apply Forall_forall. intros j Hj.
    destruct (mapM_In_inv _ _ _ _ Hinfos Hj) as (T0 & HT0 & Hl0).
    apply in_app_or in HT0. destruct HT0 as [HT0|HT0].
    - destruct (mapM_layout_In _ _ T0 Hinfos') as (j' & Hj' & Hin').
      { apply in_or_app. left. apply in_or_app. left. assumption. }
      rewrite Hl0 in Hj'. injection Hj' as <-.
      split; apply fold_max_In; apply in_map; assumption.
    - apply repeat_spec in HT0. subst T0. cbn in Hl0. injection Hl0 as <-.
      cbn [builtin_info scalar_info t_align t_size builtin_size].
      split; apply fold_max_lower. }
  assert (Ha : t_align i <= t_align i').
  { rewrite Hal, Hal'. apply fold_max_bound; [apply fold_max_lower|].
    apply Forall_map. eapply Forall_impl; [|exact Hall]. intros j Hj. apply Hj. }
  split; [assumption|].
  pose proof (wf_align _ (layout_wf _ _ Hi)) as Hp.
  pose proof (wf_align _ (layout_wf _ _ Hi')) as Hp'.
  pose proof (pow2_range _ Hp). pose proof (pow2_range _ Hp').
  rewrite Hsz, Hsz'. apply align_to_least; [lia| |].
  - etransitivity; [|apply align_to_bounds; lia].
    apply fold_max_bound; [apply fold_max_lower|].
    apply Forall_map. eapply Forall_impl; [|exact Hall]. intros j Hj. apply Hj.
  - apply (mod_divide_trans _ _ (t_align i')); try lia.
    + apply align_to_mod. lia.
    + apply pow2_divide; assumption.
Qed.

Lemma AlignedCharArrayUnion_grows_witness :
  exists i i',
    layout (derived (aligned_buffer 4 4)) = Some i
    /\ layout (derived (aligned_buffer 16 16)) = Some i'
    /\ t_align i <= t_align i'
    /\ t_size i <= t_size i'.
Proof.
  apply (AlignedCharArrayUnion_grows GnuAttribute
           [Builtin Int; Builtin Short] (Builtin LongDouble));
    vm_compute; reflexivity.
Defined.

(** *** What the threshold constants say about addresses *)

Lemma pow2_ge_divides a k :
  pow2 a -> pow2 k -> (k <= a <-> a mod k = 0).
Proof.
  intros Ha Hk. pose proof (pow2_range _ Ha). pose proof (pow2_range _ Hk).
  split.
  - intros Hle. apply pow2_divide; assumption.
  - intros Hm. apply Z.mod_divide in Hm; [|lia].
    apply Z.divide_pos_le in Hm; lia.
Qed.

(** [AlignOf<AlignmentCalcImplBase>] does not compile: the helper would
    name [AlignmentCalcImplBase] as a direct base twice. *)
Lemma AlignOf_not_Base T r :
  AlignOf T = Some r -> T <> AlignmentCalcImplBase.
Proof. intros H ->. vm_compute in H. discriminate. Qed.

(** When [AlignOf<T>] compiles for an abstract class without virtual
    bases, the helper fits. *)
Lemma AlignOf_abstract_inv T i r :
  layout T = Some i -> t_abstract i = true -> t_vbases i = [] ->
  AlignOf T = Some r ->
  Alignment r = t_align i /\ t_size i + t_align i <= max_object_size.
Proof.
  intros HT Hab Hvb Hr. pose proof (layout_wf _ _ HT) as Hw.
  pose proof (AlignOf_not_Base _ _ Hr) as Hnb.
  destruct (Z.le_gt_cases (t_size i + t_align i) max_object_size) as [Hfit|Hbig].
  - destruct (AlignOf_abstract T i HT Hab Hvb Hfit Hnb) as (r' & Hr' & Ha).
    split; [congruence|assumption].
  - exfalso.
    pose proof (wf_abstract _ Hw Hab) as Hdyn.
    pose proof (wf_class _ Hw Hdyn) as Hcl.
    destruct (wf_dynamic _ Hw Hdyn) as (Hne & Hpa & Hps).
    destruct (wf_novb _ Hw Hdyn Hvb) as (Hal & Hsz).
    pose proof (pow2_range _ (wf_nvalign _ Hw)) as Hrg.
    unfold pointer_size in *.
    unfold AlignOf, AlignmentCalcImpl, is_abstract in Hr.
    rewrite HT in Hr. cbn [bind] in Hr. rewrite Hab in Hr.
    apply bind_Some in Hr. destruct Hr as (s & Hs & _).
    unfold sizeof in Hs. apply bind_Some in Hs. destruct Hs as (j & Hj & _).
    rewrite layout_Class in Hj by (apply distinct_pair; intros E; apply Hnb; symmetry; exact E).
    cbn [mapM bind fst snd] in Hj. rewrite Base_layout, HT in Hj.
    cbn [bind] in Hj.
    unfold class_info, base_ok, graph_vbases, base_order, start_cursor in Hj.
    cbn [forallb map filter fst snd negb andb orb existsb find flat_map app
         t_class t_dynamic t_vbases t_abstract t_empty t_nvsize t_nvalign
         t_size c_virtual c_pure c_overrides c_trivial pure_dtor_class
         drop_primary fold_left place_base] in Hj.
    unfold place_base in Hj. rewrite Hcl, Hvb, Hne in Hj.
    cbn [andb negb dedupe app fold_left place_base] in Hj.
    unfold final_size, place_member in Hj. cbn [dsize csize calign] in Hj.
    change (align_to 0 8) with 0 in Hj. cbn [Z.add] in Hj.
    rewrite (align_to_small (t_nvalign i) 8) in Hj by lia.
    replace (Z.max (Z.max (Z.max 0 8) (t_nvalign i + t_nvsize i)) 1)
      with (1 * t_nvalign i + t_nvsize i) in Hj by lia.
    replace (Z.max (Z.max 1 8) (t_nvalign i)) with (t_nvalign i) in Hj by lia.
    rewrite align_to_shift in Hj by lia. rewrite <- Hal, <- Hsz in Hj.
    destruct (max_object_size <? _) eqn:E; [discriminate|].
    apply Z.ltb_ge in E. lia.
Qed.

(** X14.  For a type without virtual base classes, the threshold
    constant [Alignment_GreaterEqual_kBytes] is 1 exactly when [k]
    divides the alignment of [T], that is, when every object of type [T]
    starts on a multiple of [k]; for [k] in 2, 4, 8, 16. *)
Theorem threshold_constants_divide (T : ty) (i : tinfo) (r : AlignOf_members) :
  layout T = Some i ->
  t_vbases i = [] ->
  AlignOf T = Some r ->
  (Alignment_GreaterEqual_2Bytes r = 1 <-> t_align i mod 2 = 0)
  /\ (Alignment_GreaterEqual_4Bytes r = 1 <-> t_align i mod 4 = 0)
  /\ (Alignment_GreaterEqual_8Bytes r = 1 <-> t_align i mod 8 = 0)
  /\ (Alignment_GreaterEqual_16Bytes r = 1 <-> t_align i mod 16 = 0).
Proof.
  intros HT Hvb Hr. pose proof (layout_wf _ _ HT) as Hw.
  assert (Ha : Alignment r = t_align i).
  { destruct (t_abstract i) eqn:Hab.
    - apply (AlignOf_abstract_inv _ _ _ HT Hab Hvb Hr).
    - apply (AlignOf_concrete_inv _ _ _ HT Hab Hr). }
  destruct (AlignOf_flags T r Hr) as (-> & -> & -> & -> & _).
  rewrite !flag_ge, Ha.
  pose proof (wf_align _ Hw) as Hp.
  repeat split; intros H.
  all: try (apply (pow2_ge_divides (t_align i)) in H; [exact H|assumption|]).
  all: try (apply (pow2_ge_divides (t_align i)); [assumption| |exact H]).
  all: first [exists 1; split; [lia|reflexivity]
             |exists 2; split; [lia|reflexivity]
             |exists 3; split; [lia|reflexivity]
             |exists 4; split; [lia|reflexivity]].
Qed.

Lemma threshold_constants_divide_witness :
  exists r, AlignOf (Builtin Double) = Some r
    /\ (Alignment_GreaterEqual_8Bytes r = 1 <-> 8 mod 8 = 0)
    /\ (Alignment_GreaterEqual_16Bytes r = 1 <-> 8 mod 16 = 0).
Proof.
  eexists. split; [reflexivity|].
  destruct (threshold_constants_divide (Builtin Double)
              (builtin_info Double) _ eq_refl eq_refl eq_refl)
    as (_ & _ & H8 & H16).
  split; [exact H8|exact H16].
Defined.

(** *** Empty classes *)

(** X15.  For an empty class in which no class occurs twice as a
    base-class subobject, so that every empty base lies at offset 0, the
    subtraction still measures: the helper is 2 bytes, the class 1 byte,
    and [AlignOf<T>::Alignment] is 1. *)
Theorem AlignOf_empty_class (T : ty) (i : tinfo) :
  layout T = Some i ->
  t_empty i = true ->
  distinct (base_subobjects T) = true ->
  exists r impl,
    AlignOf T = Some r /\ Alignment r = 1
    /\ sizeof T = Some 1
    /\ AlignmentCalcImpl T = Some impl /\ sizeof impl = Some 2.
Proof.
  intros HT He _. pose proof (layout_wf _ _ HT) as Hw.
  destruct (wf_empty _ Hw He) as (Hs & _).
  pose proof (wf_mod _ Hw) as Hm. rewrite Hs in Hm.
  pose proof (pow2_range _ (wf_align _ Hw)) as Hr.
  assert (Ha : t_align i = 1).
  { destruct (Z.eq_dec (t_align i) 1) as [E|E]; [assumption|].
    rewrite Z.mod_small in Hm by lia. discriminate. }
  assert (Hab : t_abstract i = false).
  { destruct (t_abstract i) eqn:E; [|reflexivity].
    destruct (wf_dynamic _ Hw (wf_abstract _ Hw E)) as (Hne & _). congruence. }
  assert (Hfit : t_size i + t_align i <= max_object_size)
    by (rewrite Hs, Ha; unfold max_object_size; lia).
  destruct (AlignOf_concrete T i HT Hab Hfit) as (r & Hr' & Har).
  destruct (char_then_T_layout "AlignmentCalcImpl" T i HT Hab Hfit)
    as (j & Hj & Hsz & _).
  exists r, (Class "AlignmentCalcImpl" (plain_class false) []
               [member (Builtin Char); member T]).
  split; [assumption|]. split; [congruence|]. split.
  { unfold sizeof. rewrite HT. cbn [bind]. congruence. }
  split.
  { unfold AlignmentCalcImpl, is_abstract. rewrite HT. cbn [bind].
    rewrite Hab. reflexivity. }
  unfold sizeof. rewrite Hj. cbn [bind]. f_equal. lia.
Qed.

Lemma AlignOf_empty_class_witness :
  exists r impl,
    AlignOf EmptyDerived = Some r /\ Alignment r = 1
    /\ sizeof EmptyDerived = Some 1
    /\ AlignmentCalcImpl EmptyDerived = Some impl /\ sizeof impl = Some 2.
Proof.
  refine (AlignOf_empty_class EmptyDerived
            {| t_name := "Tag"; t_size := 1; t_align := 1;
               t_nvsize := 0; t_nvalign := 1; t_class := true;
               t_dynamic := false; t_abstract := false; t_empty := true;
               t_pod := false; t_vbases := [] |} _ _ _);
    [vm_compute; reflexivity|reflexivity|reflexivity].
Defined.

